(** * Analytic gravitational potentials of [streamteam/potential/cbuiltin.pyx]

    A shallow embedding of the three Cython kernels ([_HernquistPotential],
    [_MiyamotoNagaiPotential], [_LeeSutoNFWPotential]) and of the Python
    classes that construct them.

    Numbers.  The C [double]s of the source are read as real numbers: every
    arithmetic operation is the exact operation of the field of reals, so
    rounding, overflow, underflow, infinities and NaN are outside the model.  Where the
    source divides, the places at which the divisor vanishes are named and
    reasoned about explicitly; no result below rests on the value the reals
    library gives to a quotient by zero.

    Memory.  The typed memoryviews handed to [_value] and [_gradient] are
    views of caller-owned buffers.  A heap maps buffer identifiers to flat
    arrays; a two-dimensional C-contiguous view with three columns reads
    element [(i,j)] at offset [3*i+j].  Two views alias exactly when they
    name the same buffer. *)

From Stdlib Require Import Reals Lra Lia ZArith.
From stdpp Require Import base list.

Open Scope R_scope.

Abbreviation real := Rdefinitions.R.

#[global] Instance real_eq_dec : EqDecision real := Req_dec_T.

(** ** [math.h] *)

(** [pow(x, n)] with an integral literal exponent is the iterated product
    [x ^ n] of the reals library (any base).  [pow(x, y)] with a fractional
    exponent is only used with a non-negative base; on a positive base it is
    [exp (y * ln x)]. *)
Definition powf (x y : real) : real := Rpower x y.

Definition log (x : real) : real := ln x.

(** ** Errors *)

Inductive error : Type :=
  | ZeroDivisionError   (* Cython's check on [/] where [cdivision] is off *)
  | LinAlgError         (* [np.linalg.inv] on a singular matrix *)
  | NotImplemented
  | InvalidParameter
  | InvalidArgument
  | MemoryFault.        (* an access outside a buffer ([boundscheck(False)]) *)

Definition result (A : Type) : Type := (error + A)%type.

Definition ok {A} (a : A) : result A := inr a.
Definition raise {A} (e : error) : result A := inl e.

Definition bind {A B} (m : result A) (k : A -> result B) : result B :=
  match m with
  | inl e => inl e
  | inr a => k a
  end.

Notation "'do' x <- m ; k" := (bind m (fun x => k))
  (at level 10, x name, m at level 100, k at level 200).

(** ** Buffers and the per-particle loops *)

Abbreviation buffer := (list real).
Abbreviation heap := (list (list real)).

Definition load (h : heap) (b k : nat) : result real :=
  match h !! b with
  | Some a => match a !! k with
              | Some v => ok v
              | None => raise MemoryFault
              end
  | None => raise MemoryFault
  end.

Definition store (h : heap) (b k : nat) (v : real) : result heap :=
  match h !! b with
  | Some a => if decide (k < length a)%nat
              then ok (<[b := <[k := v]> a]> h)
              else raise MemoryFault
  | None => raise MemoryFault
  end.

(** Offset of element [(i,j)] of a [double[:,::1]] view with three columns. *)
Definition idx2 (i j : nat) : nat := (3 * i + j)%nat.

(** [for i in range(n): body] from start index [i], threading the heap. *)
Fixpoint for_range (body : nat -> heap -> result heap) (i n : nat) (h : heap)
  : result heap :=
  match n with
  | O => ok h
  | S n' => do h' <- body i h; for_range body (S i) n' h'
  end.

(** [range(nparticles)] for a C [int]: empty when [nparticles <= 0]. *)
Definition range_count (nparticles : Z) : nat := Z.to_nat nparticles.

(** One iteration of the loop shared by the three [_value] methods: read
    the three coordinates of particle [i], write one scalar to [pot[i]]. *)
Definition value_step (f : real -> real -> real -> real) (r pot : nat)
    (i : nat) (h : heap) : result heap :=
  do x <- load h r (idx2 i 0);
  do y <- load h r (idx2 i 1);
  do z <- load h r (idx2 i 2);
  store h pot i (f x y z).

Definition each_value (f : real -> real -> real -> real)
    (r pot : nat) (nparticles : Z) (h : heap) : result heap :=
  for_range (value_step f r pot) 0 (range_count nparticles) h.

(** One iteration of the loop shared by the three [_gradient] methods: read
    the three coordinates first, then write [grad[i,0]], [grad[i,1]],
    [grad[i,2]]. *)
Definition gradient_step (g : real -> real -> real -> real * real * real)
    (r grad : nat) (i : nat) (h : heap) : result heap :=
  do x <- load h r (idx2 i 0);
  do y <- load h r (idx2 i 1);
  do z <- load h r (idx2 i 2);
  let '(gx, gy, gz) := g x y z in
  do h1 <- store h grad (idx2 i 0) gx;
  do h2 <- store h1 grad (idx2 i 1) gy;
  store h2 grad (idx2 i 2) gz.

Definition each_gradient (g : real -> real -> real -> real * real * real)
    (r grad : nat) (nparticles : Z) (h : heap) : result heap :=
  for_range (gradient_step g r grad) 0 (range_count nparticles) h.

(** Coordinates of particle [i] in a position buffer. *)
Definition coord (rb : buffer) (i j : nat) : real := nth (idx2 i j) rb 0.

(** ** Hernquist spheroid *)

Module _HernquistPotential.

Record t : Type := { G : real; GM : real; m : real; c : real }.

Definition __init__ (G m c : real) : t :=
  {| G := G; GM := G * m; m := m; c := c |}.

(** Body of the loop of [_value]. *)
Definition value_at (self : t) (x y z : real) : real :=
  let R := sqrt (x*x + y*y + z*z) in
  - GM self / (R + c self).

(** Body of the loop of [_gradient]. *)
Definition gradient_at (self : t) (x y z : real) : real * real * real :=
  let R := sqrt (x*x + y*y + z*z) in
  let fac := GM self / ((R + c self) ^ 2 * R) in
  (fac * x, fac * y, fac * z).

Definition _value (self : t) := each_value (value_at self).
Definition _gradient (self : t) := each_gradient (gradient_at self).

End _HernquistPotential.

(** ** Miyamoto-Nagai disk *)

Module _MiyamotoNagaiPotential.

Record t : Type :=
  { G : real; GM : real; m : real; a : real; b : real; b2 : real }.

Definition __init__ (G m a b : real) : t :=
  {| G := G; GM := G * m; m := m; a := a; b := b; b2 := b * b |}.

(** The divisor of [pot[i] = -self.GM / sqrt(x*x + y*y + zd*zd)]. *)
Definition value_den (self : t) (x y z : real) : real :=
  let zd := a self + sqrt (z*z + b2 self) in
  sqrt (x*x + y*y + zd*zd).

Definition value_at (self : t) (x y z : real) : real :=
  - GM self / value_den self x y z.

(** The locals [sqrtz], [zd] and [fac] of [_gradient]. *)
Definition sqrtz (self : t) (z : real) : real := sqrt (z*z + b2 self).

Definition zd (self : t) (z : real) : real := a self + sqrtz self z.

Definition fac (self : t) (x y z : real) : real :=
  GM self * powf (x*x + y*y + zd self z * zd self z) (-1.5).

Definition gradient_at (self : t) (x y z : real) : real * real * real :=
  (fac self x y z * x,
   fac self x y z * y,
   fac self x y z * z * (1 + a self / sqrtz self z)).

Definition _value (self : t) := each_value (value_at self).
Definition _gradient (self : t) := each_gradient (gradient_at self).

End _MiyamotoNagaiPotential.

(** ** 3x3 matrices, [numpy] and [astropy] operations used by the source *)

Record mat3 : Type := Mat3
  { m00 : real; m01 : real; m02 : real;
    m10 : real; m11 : real; m12 : real;
    m20 : real; m21 : real; m22 : real }.

(** [np.eye(3)] *)
Definition eye3 : mat3 := Mat3 1 0 0  0 1 0  0 0 1.

(** [A.dot(B)] *)
Definition dot (A B : mat3) : mat3 :=
  Mat3 (m00 A * m00 B + m01 A * m10 B + m02 A * m20 B)
       (m00 A * m01 B + m01 A * m11 B + m02 A * m21 B)
       (m00 A * m02 B + m01 A * m12 B + m02 A * m22 B)
       (m10 A * m00 B + m11 A * m10 B + m12 A * m20 B)
       (m10 A * m01 B + m11 A * m11 B + m12 A * m21 B)
       (m10 A * m02 B + m11 A * m12 B + m12 A * m22 B)
       (m20 A * m00 B + m21 A * m10 B + m22 A * m20 B)
       (m20 A * m01 B + m21 A * m11 B + m22 A * m21 B)
       (m20 A * m02 B + m21 A * m12 B + m22 A * m22 B).

Definition transpose (A : mat3) : mat3 :=
  Mat3 (m00 A) (m10 A) (m20 A)
       (m01 A) (m11 A) (m21 A)
       (m02 A) (m12 A) (m22 A).

Definition det3 (A : mat3) : real :=
  m00 A * (m11 A * m22 A - m12 A * m21 A)
  - m01 A * (m10 A * m22 A - m12 A * m20 A)
  + m02 A * (m10 A * m21 A - m11 A * m20 A).

(** Adjugate (transposed cofactor matrix). *)
Definition adj3 (A : mat3) : mat3 :=
  Mat3 (m11 A * m22 A - m12 A * m21 A)
       (m02 A * m21 A - m01 A * m22 A)
       (m01 A * m12 A - m02 A * m11 A)
       (m12 A * m20 A - m10 A * m22 A)
       (m00 A * m22 A - m02 A * m20 A)
       (m02 A * m10 A - m00 A * m12 A)
       (m10 A * m21 A - m11 A * m20 A)
       (m01 A * m20 A - m00 A * m21 A)
       (m00 A * m11 A - m01 A * m10 A).

Definition scale3 (k : real) (A : mat3) : mat3 :=
  Mat3 (k * m00 A) (k * m01 A) (k * m02 A)
       (k * m10 A) (k * m11 A) (k * m12 A)
       (k * m20 A) (k * m21 A) (k * m22 A).

(** [np.linalg.inv]: the exact inverse; [None] stands for the [LinAlgError]
    that numpy raises on a singular matrix.  numpy decides singularity on the
    pivots of a floating-point factorisation; the exact test on the
    determinant is relied upon for orthogonal frames only, whose determinant
    is 1 or -1. *)
Definition linalg_inv (A : mat3) : option mat3 :=
  if decide (det3 A = 0) then None
  else Some (scale3 (/ det3 A) (adj3 A)).

Inductive axis : Type := AxisX | AxisY | AxisZ.

(** [astropy.coordinates.angles.rotation_matrix(angle, axis, unit=u.radian)]:
    the matrix of a rotation of the coordinate axes by [angle] about [axis]. *)
Definition rotation_matrix (angle : real) (ax : axis) : mat3 :=
  let s := sin angle in
  let c := cos angle in
  match ax with
  | AxisZ => Mat3 c s 0  (- s) c 0  0 0 1
  | AxisY => Mat3 c 0 (- s)  0 1 0  s 0 c
  | AxisX => Mat3 1 0 0  0 c s  0 (- s) c
  end.

Definition mat_vec (A : mat3) (v : real * real * real) : real * real * real :=
  let '(x, y, z) := v in
  (m00 A * x + m01 A * y + m02 A * z,
   m10 A * x + m11 A * y + m12 A * z,
   m20 A * x + m21 A * y + m22 A * z).

(** ** Construction with a record of the library calls made

    Constructors return the calls to [numpy]/[astropy] routines they made, in
    order, together with the constructed object or the exception raised. *)

Inductive libcall : Type :=
  | call_rotation_matrix (ax : axis)
  | call_dot
  | call_eye
  | call_linalg_inv.

Definition traced (A : Type) : Type := (list libcall * result A)%type.

Definition tret {A} (a : A) : traced A := ([], ok a).
Definition traise {A} (e : error) : traced A := ([], raise e).
Definition tcall {A} (c : libcall) (a : A) : traced A := ([c], ok a).

Definition tbind {A B} (m : traced A) (k : A -> traced B) : traced B :=
  match m with
  | (l, inl e) => (l, inl e)
  | (l, inr a) => let '(l', r) := k a in (l ++ l', r)
  end.

Notation "'tdo' x <- m ; k" := (tbind m (fun x => k))
  (at level 10, x name, m at level 100, k at level 200).

(** ** Lee & Suto (2003) triaxial NFW *)

Module _LeeSutoNFWPotential.

Record t : Type :=
  { v_h : real; r_h : real; a : real; b : real; c : real;
    e_b2 : real; e_c2 : real;
    v_h2 : real; r_h2 : real; a2 : real; b2 : real; c2 : real; x0 : real;
    R : mat3; Rinv : mat3 }.

(** The attribute assignments of [__init__]. *)
Definition attributes (v_h r_h a b c : real) (R Rinv : mat3) : t :=
  {| v_h := v_h; v_h2 := v_h * v_h;
     r_h := r_h; r_h2 := r_h * r_h;
     a := a; a2 := a * a;
     b := b; b2 := b * b;
     c := c; c2 := c * c;
     e_b2 := 1 - (b / a) ^ 2;
     e_c2 := 1 - (c / a) ^ 2;
     x0 := 1 / r_h;
     R := R; Rinv := Rinv |}.

(** [__init__] is a [def] method: [cdivision] is not switched on for it, so
    the divisions [b/a], [c/a] and [1/r_h] raise [ZeroDivisionError] on a
    zero divisor.  [np.linalg.inv(R)] is called on every path that reaches
    it. *)
Definition __init__ (v_h r_h a b c : real) (R : mat3) : traced t :=
  if decide (a = 0) then traise ZeroDivisionError
  else if decide (r_h = 0) then traise ZeroDivisionError
  else
    tdo Rinv <- tcall call_linalg_inv (linalg_inv R);
    match Rinv with
    | None => traise LinAlgError
    | Some Rinv => tret (attributes v_h r_h a b c R Rinv)
    end.

(** The closed form of [_value] in the frame of the halo. *)
Definition value_native (self : t) (x y z : real) : real :=
  let _r := sqrt (x*x + y*y + z*z) in
  let u := _r / r_h self in
  v_h2 self * ((e_b2 self / 2 + e_c2 self / 2)
                 * ((1/u - 1/u^3) * log (u + 1) - 1
                    + (2*u^2 - 3*u + 6) / (6*u^2))
               + (e_b2 self * y^2 / (2*_r*_r) + e_c2 self * z*z / (2*_r*_r))
                 * ((u*u - 3*u - 6) / (2*u*u*(u + 1))
                    + 3 * log (u + 1) / u / u / u)
               - log (u + 1) / u).

(** Body of the loop of [_value]: rotate, then evaluate. *)
Definition value_at (self : t) (_x _y _z : real) : real :=
  let x := m00 (R self) * _x + m01 (R self) * _y + m02 (R self) * _z in
  let y := m10 (R self) * _x + m11 (R self) * _y + m12 (R self) * _z in
  let z := m20 (R self) * _x + m21 (R self) * _y + m22 (R self) * _z in
  value_native self x y z.

(** The components [ax], [ay], [az] of [_gradient] in the frame of the
    halo, with the source's shared subexpressions. *)
Definition gradient_native (self : t) (x y z : real) : real * real * real :=
  let _r2 := x*x + y*y + z*z in
  let _r := sqrt _r2 in
  let x0 := _r + r_h self in
  let x1 := x0 * x0 in
  let x2 := v_h2 self / (12 * _r ^ 7 * x1) in
  let x7 := e_b2 self * y * y + e_c2 self * z * z in
  let x10 := log (x0 / r_h self) in
  let x11 := x0 * x10 in
  let x13 := _r * 3 * r_h self in
  let x15 := x13 - _r2 in
  let x16 := x15 + 6 * r_h2 self in
  let x17 := 6 * r_h self * x0 * (_r * x16 - x11 * 6 * r_h2 self) in
  let x18 := x1 * x10 in
  let x20 := x0 * _r2 in
  let x21 := 2 * _r * x0 in
  let x22 := - 12 * _r ^ 5 * r_h self * x0
             + 12 * _r ^ 4 * r_h self * x18
             + 3 * r_h self * x7
               * (x16 * _r2 - 18 * x18 * r_h2 self
                  + x20 * (2 * _r - 3 * r_h self)
                  + x21 * (x15 + 9 * r_h2 self))
             - x20 * (e_b2 self + e_c2 self)
               * (- 6 * _r * r_h self * (_r2 - r_h2 self)
                  + 6 * r_h self * x11 * (_r2 - 3 * r_h2 self)
                  + x20 * (- 4 * _r + 3 * r_h self)
                  + x21 * (- x13 + 2 * _r2 + 6 * r_h2 self)) in
  let ax := x2 * x * (x17 * x7 + x22) in
  let ay := x2 * y * (x17 * (x7 - _r2 * e_b2 self) + x22) in
  let az := x2 * z * (x17 * (x7 - _r2 * e_c2 self) + x22) in
  (ax, ay, az).

(** Body of the loop of [_gradient]: rotate, evaluate, rotate back with
    [Rinv]. *)
Definition gradient_at (self : t) (_x _y _z : real) : real * real * real :=
  let x := m00 (R self) * _x + m01 (R self) * _y + m02 (R self) * _z in
  let y := m10 (R self) * _x + m11 (R self) * _y + m12 (R self) * _z in
  let z := m20 (R self) * _x + m21 (R self) * _y + m22 (R self) * _z in
  let '(ax, ay, az) := gradient_native self x y z in
  (m00 (Rinv self) * ax + m01 (Rinv self) * ay + m02 (Rinv self) * az,
   m10 (Rinv self) * ax + m11 (Rinv self) * ay + m12 (Rinv self) * az,
   m20 (Rinv self) * ax + m21 (Rinv self) * ay + m22 (Rinv self) * az).

Definition _value (self : t) := each_value (value_at self).
Definition _gradient (self : t) := each_gradient (gradient_at self).

End _LeeSutoNFWPotential.

(** ** The Python classes *)

Module CPotential.

(** A model: the parameter dictionary and the bound kernel instance. *)
Record t (P K : Type) : Type := { parameters : P; c_instance : K }.
Arguments parameters {P K} _.
Arguments c_instance {P K} _.

(** Modelled from the spec: [CPotential.__init__(c_class, parameters)] of
    the [cpotential] module, whose source is not at hand.  The spec calls it
    "a thin composition wrapper binding a PotentialKernel, a parameter
    dictionary, and a unit system into a single callable object": it
    instantiates the kernel class on the parameters and keeps both. *)
Definition __init__ {P K} (c_class : P -> traced K) (parameters : P)
  : traced (t P K) :=
  tdo k <- c_class parameters;
  tret {| parameters := parameters; c_instance := k |}.

End CPotential.

(** The methods a kernel class of this file defines.  [_hessian] is optional:
    a class that leaves it out inherits the behaviour of the base class. *)
Class CPotentialKernel (K : Type) : Type :=
  { kernel_value : K -> nat -> nat -> Z -> heap -> result heap;
    kernel_gradient : K -> nat -> nat -> Z -> heap -> result heap;
    kernel_hessian : option (K -> nat -> nat -> Z -> heap -> result heap) }.

(** In the source the [_hessian] of [_HernquistPotential] and of
    [_MiyamotoNagaiPotential] is commented out, and [_LeeSutoNFWPotential] has
    none. *)
#[global] Instance Hernquist_kernel : CPotentialKernel _HernquistPotential.t :=
  {| kernel_value := _HernquistPotential._value;
     kernel_gradient := _HernquistPotential._gradient;
     kernel_hessian := None |}.

#[global] Instance MiyamotoNagai_kernel
  : CPotentialKernel _MiyamotoNagaiPotential.t :=
  {| kernel_value := _MiyamotoNagaiPotential._value;
     kernel_gradient := _MiyamotoNagaiPotential._gradient;
     kernel_hessian := None |}.

#[global] Instance LeeSutoNFW_kernel
  : CPotentialKernel _LeeSutoNFWPotential.t :=
  {| kernel_value := _LeeSutoNFWPotential._value;
     kernel_gradient := _LeeSutoNFWPotential._gradient;
     kernel_hessian := None |}.

(** Modelled from the spec: the [hessian] entry point of the base class
    ([cpotential] module, whose source is not at hand).  The spec: "for
    variants below this is unimplemented and MUST fail with a NotImplemented
    error kind rather than silently returning zero or wrong values", and
    "[hessian] fails with a NotImplemented error kind for kernels lacking
    it". *)
Definition hessian {P K} `{CPotentialKernel K} (self : CPotential.t P K)
    (r hess : nat) (nparticles : Z) (h : heap) : result heap :=
  match kernel_hessian with
  | Some _hessian => _hessian (CPotential.c_instance self) r hess nparticles h
  | None => raise NotImplemented
  end.

Definition value {P K} `{CPotentialKernel K} (self : CPotential.t P K) :=
  kernel_value (CPotential.c_instance self).

Definition gradient {P K} `{CPotentialKernel K} (self : CPotential.t P K) :=
  kernel_gradient (CPotential.c_instance self).

(** In the three public constructors [_G] stands for
    [G.decompose(usys).value], the gravitational constant in the caller's
    unit system (resolved by [astropy]). *)

Module HernquistPotential.

Definition __init__ (m c : real) (_G : real)
  : traced (CPotential.t (real * real * real) _HernquistPotential.t) :=
  let parameters := (_G, m, c) in
  CPotential.__init__
    (fun '(G, m, c) => tret (_HernquistPotential.__init__ G m c))
    parameters.

End HernquistPotential.

Module MiyamotoNagaiPotential.

Definition __init__ (m a b : real) (_G : real)
  : traced (CPotential.t (real * real * real * real)
                         _MiyamotoNagaiPotential.t) :=
  let parameters := (_G, m, a, b) in
  CPotential.__init__
    (fun '(G, m, a, b) => tret (_MiyamotoNagaiPotential.__init__ G m a b))
    parameters.

End MiyamotoNagaiPotential.

Module LeeSutoNFWPotential.

Definition params : Type := (real * real * real * real * real * mat3)%type.

(** The frame: the three rotations and their product when an angle is
    non-zero, [np.eye(3)] otherwise. *)
Definition frame (phi theta psi : real) : traced mat3 :=
  if decide (theta <> 0 \/ phi <> 0 \/ psi <> 0) then
    tdo D <- tcall (call_rotation_matrix AxisZ) (rotation_matrix phi AxisZ);
    tdo C <- tcall (call_rotation_matrix AxisX) (rotation_matrix theta AxisX);
    tdo B <- tcall (call_rotation_matrix AxisZ) (rotation_matrix psi AxisZ);
    tdo BC <- tcall call_dot (dot B C);
    tcall call_dot (dot BC D)
  else
    tcall call_eye eye3.

Definition __init__ (v_h r_h a b c : real) (phi theta psi : real)
  : traced (CPotential.t params _LeeSutoNFWPotential.t) :=
  tdo R <- frame phi theta psi;
  let parameters := (v_h, r_h, a, b, c, R) in
  CPotential.__init__
    (fun '(v_h, r_h, a, b, c, R) =>
       _LeeSutoNFWPotential.__init__ v_h r_h a b c R)
    parameters.

End LeeSutoNFWPotential.

(** ** Gradients of functions of three real variables *)

(** [g] is the gradient of [f] at [(x,y,z)]: its components are the three
    partial derivatives there. *)
Definition is_gradient (f : real -> real -> real -> real) (x y z : real)
    (g : real * real * real) : Prop :=
  derivable_pt_lim (fun t => f t y z) x (g.1.1) /\
  derivable_pt_lim (fun t => f x t z) y (g.1.2) /\
  derivable_pt_lim (fun t => f x y t) z (g.2).

Definition norm3 (x y z : real) : real := sqrt (x*x + y*y + z*z).

(** Orthogonal matrices: the rows are orthonormal. *)
Definition orthogonal (A : mat3) : Prop := dot A (transpose A) = eye3.

(** Expressions in one real variable, their value, the value of their
    derivative by the usual rules, and the condition under which the rules
    apply. *)
Inductive expr : Type :=
  | Var
  | Const (k : real)
  | Add (a b : expr)
  | Sub (a b : expr)
  | Mul (a b : expr)
  | Div (a b : expr)
  | Neg (a : expr)
  | Sqrt (a : expr)
  | Ln (a : expr)
  | Pow (a : expr) (n : nat).

Fixpoint eval (e : expr) (t : real) : real :=
  match e with
  | Var => t
  | Const k => k
  | Add a b => eval a t + eval b t
  | Sub a b => eval a t - eval b t
  | Mul a b => eval a t * eval b t
  | Div a b => eval a t / eval b t
  | Neg a => - eval a t
  | Sqrt a => sqrt (eval a t)
  | Ln a => ln (eval a t)
  | Pow a n => eval a t ^ n
  end.

Fixpoint dval (e : expr) (t : real) : real :=
  match e with
  | Var => 1
  | Const _ => 0
  | Add a b => dval a t + dval b t
  | Sub a b => dval a t - dval b t
  | Mul a b => dval a t * eval b t + eval a t * dval b t
  | Div a b => (dval a t * eval b t - dval b t * eval a t) / Rsqr (eval b t)
  | Neg a => - dval a t
  | Sqrt a => / (2 * sqrt (eval a t)) * dval a t
  | Ln a => / eval a t * dval a t
  | Pow a n => INR n * eval a t ^ pred n * dval a t
  end.

Fixpoint regular (e : expr) (t : real) : Prop :=
  match e with
  | Var | Const _ => True
  | Add a b | Sub a b | Mul a b => regular a t /\ regular b t
  | Div a b => regular a t /\ regular b t /\ eval b t <> 0
  | Neg a | Pow a _ => regular a t
  | Sqrt a | Ln a => regular a t /\ 0 < eval a t
  end.

(** The six loops of the source, as methods of given kernel instances. *)
Definition kernel_methods (hq : _HernquistPotential.t)
    (mn : _MiyamotoNagaiPotential.t) (ls : _LeeSutoNFWPotential.t)
  : list (nat -> nat -> Z -> heap -> result heap) :=
  [ _HernquistPotential._value hq; _HernquistPotential._gradient hq;
    _MiyamotoNagaiPotential._value mn; _MiyamotoNagaiPotential._gradient mn;
    _LeeSutoNFWPotential._value ls; _LeeSutoNFWPotential._gradient ls ].

(** The [_value] methods of given kernel instances, each with the rule it
    applies to a particle; likewise the [_gradient] methods. *)
Definition value_methods (hq : _HernquistPotential.t)
    (mn : _MiyamotoNagaiPotential.t) (ls : _LeeSutoNFWPotential.t)
  : list ((nat -> nat -> Z -> heap -> result heap)
          * (real -> real -> real -> real)) :=
  [ (_HernquistPotential._value hq, _HernquistPotential.value_at hq);
    (_MiyamotoNagaiPotential._value mn, _MiyamotoNagaiPotential.value_at mn);
    (_LeeSutoNFWPotential._value ls, _LeeSutoNFWPotential.value_at ls) ].

Definition gradient_methods (hq : _HernquistPotential.t)
    (mn : _MiyamotoNagaiPotential.t) (ls : _LeeSutoNFWPotential.t)
  : list ((nat -> nat -> Z -> heap -> result heap)
          * (real -> real -> real -> real * real * real)) :=
  [ (_HernquistPotential._gradient hq, _HernquistPotential.gradient_at hq);
    (_MiyamotoNagaiPotential._gradient mn,
     _MiyamotoNagaiPotential.gradient_at mn);
    (_LeeSutoNFWPotential._gradient ls, _LeeSutoNFWPotential.gradient_at ls) ].

(** * Properties *)

(** ** Buffers *)

Section Buffers.

Implicit Types (h : heap) (rb ob : buffer).

Lemma load_ok h b rb k :
  h !! b = Some rb -> (k < length rb)%nat -> load h b k = ok (nth k rb 0).
Proof.
  intros Hb Hk. unfold load. rewrite Hb.
  destruct (lookup_lt_is_Some_2 rb k Hk) as [v Hv].
  rewrite Hv. f_equal. symmetry. by apply nth_lookup_Some.
Qed.

Lemma store_ok h b ob k v :
  h !! b = Some ob -> (k < length ob)%nat ->
  store h b k v = ok (<[b := <[k := v]> ob]> h).
Proof.
  intros Hb Hk. unfold store. rewrite Hb. by case_decide.
Qed.

Lemma store_other h b k v h' b' :
  store h b k v = ok h' -> b' <> b -> h' !! b' = h !! b'.
Proof.
  unfold store. destruct (h !! b) as [ob|] eqn:Hb; [|discriminate].
  case_decide; [|discriminate].
  intros [= <-] Hne. by apply list_lookup_insert_ne.
Qed.

Lemma bind_ok {A B} (m : result A) (k : A -> result B) v :
  bind m k = ok v -> exists a, m = ok a /\ k a = ok v.
Proof. destruct m as [e|a]; [discriminate|]. intros Hk. by exists a. Qed.

(** A loop whose body leaves buffer [b] alone leaves it alone. *)
Lemma for_range_other body b :
  (forall i h h', body i h = ok h' -> h' !! b = h !! b) ->
  forall n i h h', for_range body i n h = ok h' -> h' !! b = h !! b.
Proof.
  intros Hbody. induction n as [|n IH]; intros i h h' Hrun.
  - by injection Hrun as <-.
  - cbn in Hrun. apply bind_ok in Hrun as (h1 & H1 & Hrest).
    rewrite (IH _ _ _ Hrest). by apply Hbody with i.
Qed.

Lemma each_value_other f r pot n h h' b :
  each_value f r pot n h = ok h' -> b <> pot -> h' !! b = h !! b.
Proof.
  intros Hrun Hne. revert Hrun. unfold each_value.
  apply for_range_other. clear -Hne. intros i h h' Hbody.
  unfold value_step, gradient_step in Hbody.
  apply bind_ok in Hbody as (x & _ & Hbody).
  apply bind_ok in Hbody as (y & _ & Hbody).
  apply bind_ok in Hbody as (z & _ & Hbody).
  by eapply store_other.
Qed.

Lemma each_gradient_other g r grad n h h' b :
  each_gradient g r grad n h = ok h' -> b <> grad -> h' !! b = h !! b.
Proof.
  intros Hrun Hne. revert Hrun. unfold each_gradient.
  apply for_range_other. clear -Hne. intros i h h' Hbody.
  unfold value_step, gradient_step in Hbody.
  apply bind_ok in Hbody as (x & _ & Hbody).
  apply bind_ok in Hbody as (y & _ & Hbody).
  apply bind_ok in Hbody as (z & _ & Hbody).
  destruct (g x y z) as [[gx gy] gz].
  apply bind_ok in Hbody as (h1 & H1 & Hbody).
  apply bind_ok in Hbody as (h2 & H2 & H3).
  rewrite (store_other _ _ _ _ _ _ H3 Hne), (store_other _ _ _ _ _ _ H2 Hne).
  by eapply store_other.
Qed.

(** The scalar loop over particles [i0 .. i0+n-1], input and output in
    different buffers that are large enough. *)
Lemma each_value_from f r pot rb :
  r <> pot ->
  forall n i0 h ob,
    h !! r = Some rb -> h !! pot = Some ob ->
    (3 * (i0 + n) <= length rb)%nat -> (i0 + n <= length ob)%nat ->
    exists ob',
      for_range (value_step f r pot) i0 n h = ok (<[pot := ob']> h)
      /\ length ob' = length ob
      /\ (forall i, (i0 <= i < i0 + n)%nat ->
            ob' !! i = Some (f (coord rb i 0) (coord rb i 1) (coord rb i 2)))
      /\ (forall i, (i < i0 \/ i0 + n <= i)%nat -> ob' !! i = ob !! i).
Proof.
  intros Hne. induction n as [|n IH]; intros i0 h ob Hr Hp Hlr Hlo.
  - exists ob. cbn. split; [|split; [|split]]; [|done|intros; lia|done].
    by rewrite list_insert_id.
  - cbn [for_range]. unfold value_step at 1.
    rewrite (load_ok h r rb (idx2 i0 0) Hr) by (unfold idx2; lia). cbn [bind ok].
    rewrite (load_ok h r rb (idx2 i0 1) Hr) by (unfold idx2; lia). cbn [bind ok].
    rewrite (load_ok h r rb (idx2 i0 2) Hr) by (unfold idx2; lia). cbn [bind ok].
    fold (coord rb i0 0) (coord rb i0 1) (coord rb i0 2).
    set (v := f _ _ _).
    rewrite (store_ok h pot ob i0 v Hp) by lia. cbn [bind ok].
    assert (Hpl : (pot < length h)%nat) by by eapply lookup_lt_Some.
    destruct (IH (S i0) (<[pot := <[i0 := v]> ob]> h) (<[i0 := v]> ob))
      as (ob' & Hrun & Hlen & Hin & Hout).
    + by rewrite list_lookup_insert_ne.
    + by rewrite list_lookup_insert_eq.
    + lia.
    + rewrite length_insert. lia.
    + exists ob'. rewrite Hrun, list_insert_insert_eq.
      rewrite length_insert in Hlen.
      split; [|split; [|split]]; [done|done| |].
      * intros i Hi. destruct (decide (i = i0)) as [->|Hd].
        -- rewrite Hout by lia. apply list_lookup_insert_eq. lia.
        -- apply Hin. lia.
      * intros i Hi. rewrite Hout by lia.
        apply list_lookup_insert_ne. lia.
Qed.

Lemma each_value_spec f r pot n h rb ob :
  r <> pot -> h !! r = Some rb -> h !! pot = Some ob ->
  (3 * range_count n <= length rb)%nat -> (range_count n <= length ob)%nat ->
  exists ob',
    each_value f r pot n h = ok (<[pot := ob']> h)
    /\ length ob' = length ob
    /\ (forall i, (i < range_count n)%nat ->
          ob' !! i = Some (f (coord rb i 0) (coord rb i 1) (coord rb i 2)))
    /\ (forall i, (range_count n <= i)%nat -> ob' !! i = ob !! i).
Proof.
  intros Hne Hr Hp Hlr Hlo.
  destruct (each_value_from f r pot rb Hne (range_count n) 0%nat h ob)
    as (ob' & Hrun & Hlen & Hin & Hout); [done|done|lia|lia|].
  exists ob'. split; [|split; [|split]]; [done|done| |].
  - intros i Hi. apply Hin. lia.
  - intros i Hi. apply Hout. lia.
Qed.

(** The vector loop, under the same conditions. *)
Lemma each_gradient_from g r grad rb :
  r <> grad ->
  forall n i0 h ob,
    h !! r = Some rb -> h !! grad = Some ob ->
    (3 * (i0 + n) <= length rb)%nat -> (3 * (i0 + n) <= length ob)%nat ->
    exists ob',
      for_range (gradient_step g r grad) i0 n h = ok (<[grad := ob']> h)
      /\ length ob' = length ob
      /\ (forall i, (i0 <= i < i0 + n)%nat ->
            let v := g (coord rb i 0) (coord rb i 1) (coord rb i 2) in
            ob' !! idx2 i 0 = Some v.1.1 /\
            ob' !! idx2 i 1 = Some v.1.2 /\
            ob' !! idx2 i 2 = Some v.2)
      /\ (forall k, (k < 3 * i0 \/ 3 * (i0 + n) <= k)%nat ->
            ob' !! k = ob !! k).
Proof.
  intros Hne. induction n as [|n IH]; intros i0 h ob Hr Hp Hlr Hlo.
  - exists ob. cbn. split; [|split; [|split]]; [|done|intros; lia|done].
    by rewrite list_insert_id.
  - cbn [for_range]. unfold gradient_step at 1.
    rewrite (load_ok h r rb (idx2 i0 0) Hr) by (unfold idx2; lia). cbn [bind ok].
    rewrite (load_ok h r rb (idx2 i0 1) Hr) by (unfold idx2; lia). cbn [bind ok].
    rewrite (load_ok h r rb (idx2 i0 2) Hr) by (unfold idx2; lia). cbn [bind ok].
    fold (coord rb i0 0) (coord rb i0 1) (coord rb i0 2).
    assert (Hpl : (grad < length h)%nat) by by eapply lookup_lt_Some.
    assert (Hv : forall i, i = i0 ->
              g (coord rb i 0) (coord rb i 1) (coord rb i 2)
              = g (coord rb i0 0) (coord rb i0 1) (coord rb i0 2))
      by by intros ? ->.
    destruct (g (coord rb i0 0) (coord rb i0 1) (coord rb i0 2))
      as [[gx gy] gz].
    rewrite (store_ok h grad ob (idx2 i0 0) gx Hp) by (unfold idx2; lia).
    cbn [bind ok].
    erewrite store_ok;
      [|by apply list_lookup_insert_eq
       |rewrite length_insert; unfold idx2; lia].
    cbn [bind ok]. rewrite list_insert_insert_eq.
    erewrite store_ok;
      [|by apply list_lookup_insert_eq
       |rewrite !length_insert; unfold idx2; lia].
    cbn [bind ok]. rewrite list_insert_insert_eq.
    set (ob3 := <[idx2 i0 2 := gz]> (<[idx2 i0 1 := gy]> (<[idx2 i0 0 := gx]> ob))).
    assert (Hl3 : length ob3 = length ob)
      by (unfold ob3; by rewrite !length_insert).
    destruct (IH (S i0) (<[grad := ob3]> h) ob3)
      as (ob' & Hrun & Hlen & Hin & Hout).
    + by rewrite list_lookup_insert_ne.
    + by rewrite list_lookup_insert_eq.
    + lia.
    + lia.
    + exists ob'. rewrite Hrun, list_insert_insert_eq.
      split; [|split; [|split]]; [done|lia| |].
      * intros i Hi. destruct (decide (i = i0)) as [->|Hd].
        -- rewrite (Hv i0 eq_refl). cbn.
           rewrite !Hout by (unfold idx2; lia). unfold ob3, idx2.
           split; [|split].
           ++ rewrite !list_lookup_insert_ne by lia.
              apply list_lookup_insert_eq. lia.
           ++ rewrite list_lookup_insert_ne by lia.
              apply list_lookup_insert_eq. rewrite length_insert. lia.
           ++ apply list_lookup_insert_eq. rewrite !length_insert. lia.
        -- apply Hin. lia.
      * intros k Hk. rewrite Hout by lia. unfold ob3, idx2.
        by rewrite !list_lookup_insert_ne by lia.
Qed.

Lemma each_gradient_spec g r grad n h rb ob :
  r <> grad -> h !! r = Some rb -> h !! grad = Some ob ->
  (3 * range_count n <= length rb)%nat ->
  (3 * range_count n <= length ob)%nat ->
  exists ob',
    each_gradient g r grad n h = ok (<[grad := ob']> h)
    /\ length ob' = length ob
    /\ (forall i, (i < range_count n)%nat ->
          let v := g (coord rb i 0) (coord rb i 1) (coord rb i 2) in
          ob' !! idx2 i 0 = Some v.1.1 /\
          ob' !! idx2 i 1 = Some v.1.2 /\
          ob' !! idx2 i 2 = Some v.2)
    /\ (forall k, (3 * range_count n <= k)%nat -> ob' !! k = ob !! k).
Proof.
  intros Hne Hr Hp Hlr Hlo.
  destruct (each_gradient_from g r grad rb Hne (range_count n) 0%nat h ob)
    as (ob' & Hrun & Hlen & Hin & Hout); [done|done|lia|lia|].
  exists ob'. split; [|split; [|split]]; [done|done| |].
  - intros i Hi. apply Hin. lia.
  - intros k Hk. apply Hout. lia.
Qed.

End Buffers.

(** ** What the Hernquist and Miyamoto-Nagai loops write *)

Lemma sqrt_unit_x : sqrt (1*1 + 0*0 + 0*0) = 1.
Proof. replace (1*1 + 0*0 + 0*0) with 1 by ring. apply sqrt_1. Qed.

Lemma Z_one_particle : range_count 1 = 1%nat.
Proof. reflexivity. Qed.

(** C2.  For the kernel built by [_HernquistPotential.__init__ G m c] and
    a batch of [N = nparticles] rows in the position buffer [r] (at least
    [3*N] slots): [_value], given a buffer [pot] of at least [N] slots that
    is not the position buffer, returns and has written [-GM/(R+c)] into
    [pot[i]] for every [i < N]; [_gradient], given a buffer [grad] of at
    least [3*N] slots that is not the position buffer, returns and has
    written [GM/((R+c)^2*R) * (x,y,z)] into [grad[i,0..2]] for every
    [i < N].  Here [(x,y,z)] are the slots [3*i], [3*i+1], [3*i+2] of the
    position buffer, [R = sqrt(x^2+y^2+z^2)] and [GM = G*m].  With
    [G = m = c = 1] at [(1,0,0)] the value is [-0.5] and the gradient is
    [(0.25, 0, 0)]. *)
Theorem hernquist_writes_closed_forms
    (G m c : real) (h : heap) (r pot grad : nat) (rb pb gb : buffer) (n : Z) :
  r <> pot -> r <> grad ->
  h !! r = Some rb -> h !! pot = Some pb -> h !! grad = Some gb ->
  (3 * Z.to_nat n <= length rb)%nat ->
  (Z.to_nat n <= length pb)%nat ->
  (3 * Z.to_nat n <= length gb)%nat ->
  let self := _HernquistPotential.__init__ G m c in
  (exists pot',
     _HernquistPotential._value self r pot n h = ok (<[pot := pot']> h) /\
     forall i, (i < Z.to_nat n)%nat ->
       let x := nth (3 * i) rb 0 in
       let y := nth (3 * i + 1) rb 0 in
       let z := nth (3 * i + 2) rb 0 in
       let R := sqrt (x*x + y*y + z*z) in
       pot' !! i = Some (- (G * m) / (R + c)))
  /\ (exists grad',
     _HernquistPotential._gradient self r grad n h
       = ok (<[grad := grad']> h) /\
     forall i, (i < Z.to_nat n)%nat ->
       let x := nth (3 * i) rb 0 in
       let y := nth (3 * i + 1) rb 0 in
       let z := nth (3 * i + 2) rb 0 in
       let R := sqrt (x*x + y*y + z*z) in
       grad' !! (3 * i)%nat = Some (G * m / ((R + c) ^ 2 * R) * x) /\
       grad' !! (3 * i + 1)%nat = Some (G * m / ((R + c) ^ 2 * R) * y) /\
       grad' !! (3 * i + 2)%nat = Some (G * m / ((R + c) ^ 2 * R) * z))
  /\ _HernquistPotential.value_at
       (_HernquistPotential.__init__ 1 1 1) 1 0 0 = -0.5
  /\ _HernquistPotential.gradient_at
       (_HernquistPotential.__init__ 1 1 1) 1 0 0 = (0.25, 0, 0).
Proof.
  intros Hnp Hng Hr Hp Hg Hlr Hlp Hlg self. split; [|split; [|split]].
  - destruct (each_value_spec (_HernquistPotential.value_at self)
                r pot n h rb pb Hnp Hr Hp Hlr Hlp)
      as (pot' & Hrun & _ & Hin & _).
    exists pot'. split; [exact Hrun|]. intros i Hi. cbv zeta.
    rewrite (Hin i Hi). unfold coord, idx2. by rewrite Nat.add_0_r.
  - destruct (each_gradient_spec (_HernquistPotential.gradient_at self)
                r grad n h rb gb Hng Hr Hg Hlr Hlg)
      as (grad' & Hrun & _ & Hin & _).
    exists grad'. split; [exact Hrun|]. intros i Hi. cbv zeta.
    destruct (Hin i Hi) as (H0 & H1 & H2). revert H0 H1 H2.
    unfold coord, idx2. rewrite Nat.add_0_r. by intros -> -> ->.
  - unfold _HernquistPotential.value_at. cbn. rewrite sqrt_unit_x. lra.
  - unfold _HernquistPotential.gradient_at. cbn. rewrite sqrt_unit_x.
    repeat f_equal; lra.
Qed.

(** Two particles, [(1,0,0)] and [(0,2,0)], and a [pot] buffer of two
    slots: the second slot holds the value at the second particle. *)
Lemma hernquist_writes_closed_forms_witness :
  exists pot',
    _HernquistPotential._value (_HernquistPotential.__init__ 1 1 1)
      0 1 2 [[1; 0; 0; 0; 2; 0]; [7; 7]; [7; 7; 7; 7; 7; 7]]
    = ok (<[1%nat := pot']> [[1; 0; 0; 0; 2; 0]; [7; 7]; [7; 7; 7; 7; 7; 7]])
    /\ pot' !! 0%nat = Some (- (1 * 1) / (sqrt (1*1 + 0*0 + 0*0) + 1))
    /\ pot' !! 1%nat = Some (- (1 * 1) / (sqrt (0*0 + 2*2 + 0*0) + 1)).
Proof.
  destruct (hernquist_writes_closed_forms 1 1 1
              [[1; 0; 0; 0; 2; 0]; [7; 7]; [7; 7; 7; 7; 7; 7]]
              0 1 2 [1; 0; 0; 0; 2; 0] [7; 7] [7; 7; 7; 7; 7; 7] 2)
    as ((pot' & Hrun & Hat) & _).
  - lia.
  - lia.
  - reflexivity.
  - reflexivity.
  - reflexivity.
  - simpl. lia.
  - simpl. lia.
  - simpl. lia.
  - exists pot'. split; [exact Hrun|]. split.
    + apply (Hat 0%nat). simpl. lia.
    + apply (Hat 1%nat). simpl. lia.
Defined.

(** C3.  For the kernel built by [_MiyamotoNagaiPotential.__init__ G m a b]
    and a batch of [N = nparticles] rows in the position buffer (at least
    [3*N] slots): [_value], given a buffer [pot] of at least [N] slots that
    is not the position buffer, returns and has written
    [-GM/sqrt(x^2+y^2+zd^2)] with [zd = a + sqrt(z^2+b^2)] into [pot[i]] for
    every [i < N]; [_gradient], given a buffer [grad] of at least [3*N] slots
    that is not the position buffer, returns and has written
    [(fac*x, fac*y, fac*z*(1 + a/sqrt(z^2+b^2)))] with
    [fac = GM*(x^2+y^2+zd^2)^(-3/2)] into [grad[i,0..2]] for every [i < N].
    Here [(x,y,z)] are the slots [3*i], [3*i+1], [3*i+2] of the position
    buffer.  With [G = m = a = 1], [b = 0] at the origin the value is
    [-1]. *)
Theorem miyamoto_nagai_writes_closed_forms
    (G m a b : real) (h : heap) (r pot grad : nat) (rb pb gb : buffer)
    (n : Z) :
  r <> pot -> r <> grad ->
  h !! r = Some rb -> h !! pot = Some pb -> h !! grad = Some gb ->
  (3 * Z.to_nat n <= length rb)%nat ->
  (Z.to_nat n <= length pb)%nat ->
  (3 * Z.to_nat n <= length gb)%nat ->
  let self := _MiyamotoNagaiPotential.__init__ G m a b in
  (exists pot',
     _MiyamotoNagaiPotential._value self r pot n h = ok (<[pot := pot']> h) /\
     forall i, (i < Z.to_nat n)%nat ->
       let x := nth (3 * i) rb 0 in
       let y := nth (3 * i + 1) rb 0 in
       let z := nth (3 * i + 2) rb 0 in
       let zd := a + sqrt (z*z + b*b) in
       pot' !! i = Some (- (G * m) / sqrt (x*x + y*y + zd*zd)))
  /\ (exists grad',
     _MiyamotoNagaiPotential._gradient self r grad n h
       = ok (<[grad := grad']> h) /\
     forall i, (i < Z.to_nat n)%nat ->
       let x := nth (3 * i) rb 0 in
       let y := nth (3 * i + 1) rb 0 in
       let z := nth (3 * i + 2) rb 0 in
       let zd := a + sqrt (z*z + b*b) in
       let fac := G * m * Rpower (x*x + y*y + zd*zd) (- 3 / 2) in
       grad' !! (3 * i)%nat = Some (fac * x) /\
       grad' !! (3 * i + 1)%nat = Some (fac * y) /\
       grad' !! (3 * i + 2)%nat
       = Some (fac * z * (1 + a / sqrt (z*z + b*b))))
  /\ _MiyamotoNagaiPotential.value_at
       (_MiyamotoNagaiPotential.__init__ 1 1 1 0) 0 0 0 = -1.
Proof.
  intros Hnp Hng Hr Hp Hg Hlr Hlp Hlg self. split; [|split].
  - destruct (each_value_spec (_MiyamotoNagaiPotential.value_at self)
                r pot n h rb pb Hnp Hr Hp Hlr Hlp)
      as (pot' & Hrun & _ & Hin & _).
    exists pot'. split; [exact Hrun|]. intros i Hi. cbv zeta.
    rewrite (Hin i Hi). unfold coord, idx2. by rewrite Nat.add_0_r.
  - destruct (each_gradient_spec (_MiyamotoNagaiPotential.gradient_at self)
                r grad n h rb gb Hng Hr Hg Hlr Hlg)
      as (grad' & Hrun & _ & Hin & _).
    exists grad'. split; [exact Hrun|]. intros i Hi. cbv zeta.
    destruct (Hin i Hi) as (H0 & H1 & H2). revert H0 H1 H2.
    unfold coord, idx2. rewrite Nat.add_0_r. intros -> -> ->.
    unfold _MiyamotoNagaiPotential.gradient_at, _MiyamotoNagaiPotential.fac,
      _MiyamotoNagaiPotential.zd, _MiyamotoNagaiPotential.sqrtz, powf.
    cbn. by replace (-1.5) with (- 3 / 2) by lra.
  - unfold _MiyamotoNagaiPotential.value_at,
      _MiyamotoNagaiPotential.value_den. cbn.
    replace (0*0 + 0*0) with 0 by ring. rewrite sqrt_0.
    replace (0 + (1 + 0) * (1 + 0)) with 1 by ring. rewrite sqrt_1. lra.
Qed.

(** Two particles, the origin and [(3,0,4)], and a [pot] buffer of two
    slots: the second slot holds the value at the second particle. *)
Lemma miyamoto_nagai_writes_closed_forms_witness :
  exists pot',
    _MiyamotoNagaiPotential._value (_MiyamotoNagaiPotential.__init__ 1 1 1 0)
      0 1 2 [[0; 0; 0; 3; 0; 4]; [7; 7]; [7; 7; 7; 7; 7; 7]]
    = ok (<[1%nat := pot']> [[0; 0; 0; 3; 0; 4]; [7; 7]; [7; 7; 7; 7; 7; 7]])
    /\ pot' !! 1%nat
       = Some (- (1 * 1)
               / sqrt (3*3 + 0*0
                       + (1 + sqrt (4*4 + 0*0)) * (1 + sqrt (4*4 + 0*0)))).
Proof.
  destruct (miyamoto_nagai_writes_closed_forms 1 1 1 0
              [[0; 0; 0; 3; 0; 4]; [7; 7]; [7; 7; 7; 7; 7; 7]]
              0 1 2 [0; 0; 0; 3; 0; 4] [7; 7] [7; 7; 7; 7; 7; 7] 2)
    as ((pot' & Hrun & Hat) & _).
  - lia.
  - lia.
  - reflexivity.
  - reflexivity.
  - reflexivity.
  - simpl. lia.
  - simpl. lia.
  - simpl. lia.
  - exists pot'. split; [exact Hrun|].
    apply (Hat 1%nat). simpl. lia.
Defined.

(** ** Empty batches and the position buffer *)

(** C9.  For each of the six loops: called with [nparticles = 0] it returns
    and the heap, hence every slot of the output buffer, is as it was; and
    for every [nparticles], when the position buffer [r] and the output
    buffer [out] are different buffers and the call returns, the position
    buffer is as it was. *)
Theorem zero_batch_and_positions_preserved
    (hq : _HernquistPotential.t) (mn : _MiyamotoNagaiPotential.t)
    (ls : _LeeSutoNFWPotential.t)
    (run : nat -> nat -> Z -> heap -> result heap)
    (r out : nat) (h : heap) :
  In run (kernel_methods hq mn ls) ->
  run r out 0%Z h = ok h
  /\ (r <> out ->
      forall n h', run r out n h = ok h' -> h' !! r = h !! r).
Proof.
  intros Hin. cbn in Hin.
  destruct Hin as [<-|[<-|[<-|[<-|[<-|[<-|[]]]]]]]; (split; [reflexivity|]);
    intros Hne n h' Hrun.
  all: first [ by eapply each_value_other | by eapply each_gradient_other ].
Qed.

Lemma zero_batch_and_positions_preserved_witness :
  _HernquistPotential._gradient (_HernquistPotential.__init__ 1 1 1)
    0 1 0%Z [[1; 0; 0]; [7; 7; 7]] = ok [[1; 0; 0]; [7; 7; 7]].
Proof.
  apply (zero_batch_and_positions_preserved
           (_HernquistPotential.__init__ 1 1 1)
           (_MiyamotoNagaiPotential.__init__ 1 1 1 1)
           {| _LeeSutoNFWPotential.v_h := 1; _LeeSutoNFWPotential.r_h := 1;
              _LeeSutoNFWPotential.a := 1; _LeeSutoNFWPotential.b := 1;
              _LeeSutoNFWPotential.c := 1; _LeeSutoNFWPotential.e_b2 := 0;
              _LeeSutoNFWPotential.e_c2 := 0; _LeeSutoNFWPotential.v_h2 := 1;
              _LeeSutoNFWPotential.r_h2 := 1; _LeeSutoNFWPotential.a2 := 1;
              _LeeSutoNFWPotential.b2 := 1; _LeeSutoNFWPotential.c2 := 1;
              _LeeSutoNFWPotential.x0 := 1; _LeeSutoNFWPotential.R := eye3;
              _LeeSutoNFWPotential.Rinv := eye3 |}).
  simpl. right. left. reflexivity.
Defined.

(** The condition that the two buffers differ cannot be dropped: handed the
    position buffer as its output, [_gradient] overwrites the positions. *)
Remark gradient_into_positions_overwrites :
  _HernquistPotential._gradient (_HernquistPotential.__init__ 1 1 1)
    0 0 1%Z [[1; 0; 0]]
  = ok [[_HernquistPotential.GM (_HernquistPotential.__init__ 1 1 1)
         / ((sqrt (1*1 + 0*0 + 0*0) + 1) ^ 2 * sqrt (1*1 + 0*0 + 0*0)) * 1;
         _HernquistPotential.GM (_HernquistPotential.__init__ 1 1 1)
         / ((sqrt (1*1 + 0*0 + 0*0) + 1) ^ 2 * sqrt (1*1 + 0*0 + 0*0)) * 0;
         _HernquistPotential.GM (_HernquistPotential.__init__ 1 1 1)
         / ((sqrt (1*1 + 0*0 + 0*0) + 1) ^ 2 * sqrt (1*1 + 0*0 + 0*0)) * 0]].
Proof. reflexivity. Qed.

(** ** Matrices *)

Section Matrices.

Implicit Types A B C : mat3.

Local Ltac by_entries :=
  intros; repeat match goal with A : mat3 |- _ => destruct A end;
  cbv [dot transpose eye3 scale3 adj3 det3 mat_vec
       m00 m01 m02 m10 m11 m12 m20 m21 m22];
  first [ring | f_equal; ring | f_equal; [f_equal|]; ring].

Lemma dot_assoc A B C : dot (dot A B) C = dot A (dot B C).
Proof. by_entries. Qed.

Lemma dot_eye_l A : dot eye3 A = A.
Proof. by_entries. Qed.

Lemma dot_eye_r A : dot A eye3 = A.
Proof. by_entries. Qed.

Lemma transpose_dot A B : transpose (dot A B) = dot (transpose B) (transpose A).
Proof. by_entries. Qed.

Lemma transpose_transpose A : transpose (transpose A) = A.
Proof. by_entries. Qed.

Lemma det3_dot A B : det3 (dot A B) = det3 A * det3 B.
Proof. by_entries. Qed.

Lemma det3_transpose A : det3 (transpose A) = det3 A.
Proof. by_entries. Qed.

Lemma det3_eye : det3 eye3 = 1.
Proof. by_entries. Qed.

Lemma mat_vec_dot A B v : mat_vec (dot A B) v = mat_vec A (mat_vec B v).
Proof. destruct v as [[x y] z]. by_entries. Qed.

Lemma mat_vec_eye v : mat_vec eye3 v = v.
Proof. destruct v as [[x y] z]. by_entries. Qed.

Lemma adj3_dot A : dot (adj3 A) A = scale3 (det3 A) eye3.
Proof. by_entries. Qed.

Lemma scale3_dot k A B : dot (scale3 k A) B = scale3 k (dot A B).
Proof. by_entries. Qed.

Lemma scale3_scale3 k l A : scale3 k (scale3 l A) = scale3 (k * l) A.
Proof. by_entries. Qed.

Lemma scale3_one A : scale3 1 A = A.
Proof. by_entries. Qed.

Lemma orthogonal_det A : orthogonal A -> det3 A <> 0.
Proof.
  intros HA Hd. apply (f_equal det3) in HA.
  rewrite det3_dot, det3_transpose, det3_eye, Hd in HA. lra.
Qed.

(** On an invertible matrix [np.linalg.inv] returns a left inverse. *)
Lemma linalg_inv_left A :
  det3 A <> 0 ->
  exists Ai, linalg_inv A = Some Ai /\ dot Ai A = eye3.
Proof.
  intros Hd. unfold linalg_inv. case_decide; [done|].
  eexists; split; [reflexivity|].
  rewrite scale3_dot, adj3_dot, scale3_scale3.
  rewrite Rinv_l by done. apply scale3_one.
Qed.

(** The inverse of an orthogonal matrix is its transpose. *)
Lemma linalg_inv_orthogonal A :
  orthogonal A -> linalg_inv A = Some (transpose A).
Proof.
  intros HA.
  destruct (linalg_inv_left A (orthogonal_det A HA)) as (Ai & -> & Hl).
  f_equal.
  rewrite <- (dot_eye_r Ai), <- HA, <- dot_assoc, Hl. apply dot_eye_l.
Qed.

Lemma orthogonal_eye : orthogonal eye3.
Proof. unfold orthogonal. by_entries. Qed.

Lemma orthogonal_dot A B : orthogonal A -> orthogonal B -> orthogonal (dot A B).
Proof.
  unfold orthogonal. intros HA HB.
  rewrite transpose_dot, dot_assoc, <- (dot_assoc B), HB, dot_eye_l. exact HA.
Qed.

Lemma cos_sin_unit t : cos t * cos t + sin t * sin t = 1.
Proof. pose proof (sin2_cos2 t) as H. unfold Rsqr in H. lra. Qed.

Lemma orthogonal_rotation_matrix angle ax :
  orthogonal (rotation_matrix angle ax).
Proof.
  unfold orthogonal, rotation_matrix.
  pose proof (cos_sin_unit angle) as H.
  destruct ax; cbv [dot transpose eye3 m00 m01 m02 m10 m11 m12 m20 m21 m22];
    f_equal; lra.
Qed.

(** A matrix that is orthogonal by rows is orthogonal by columns. *)
Lemma orthogonal_transpose A : orthogonal A -> dot (transpose A) A = eye3.
Proof.
  intros HA.
  destruct (linalg_inv_left A (orthogonal_det A HA)) as (Ai & Hi & Hl).
  rewrite (linalg_inv_orthogonal A HA) in Hi. by injection Hi as <-.
Qed.

End Matrices.

(** ** Construction of the Lee-Suto model *)

Section Construction.

Variables v_h r_h a b c : real.

Lemma frame_zero : LeeSutoNFWPotential.frame 0 0 0 = ([call_eye], ok eye3).
Proof.
  unfold LeeSutoNFWPotential.frame.
  case_decide as H; [|reflexivity]. by destruct H as [H|[H|H]].
Qed.

(** Whatever the angles, the frame is an orthogonal matrix, and building it
    calls no matrix inversion. *)
Lemma frame_orthogonal phi theta psi :
  exists calls R,
    LeeSutoNFWPotential.frame phi theta psi = (calls, ok R)
    /\ orthogonal R /\ ~ In call_linalg_inv calls.
Proof.
  unfold LeeSutoNFWPotential.frame. case_decide as H.
  - eexists _, _. split; [reflexivity|]. split.
    + repeat apply orthogonal_dot; apply orthogonal_rotation_matrix.
    + cbn. intros [?|[?|[?|[?|[?|[]]]]]]; discriminate.
  - eexists _, _. split; [reflexivity|]. split; [apply orthogonal_eye|].
    cbn. intros [?|[]]; discriminate.
Qed.

Lemma kernel_init_zero_divisor R :
  a = 0 \/ r_h = 0 ->
  _LeeSutoNFWPotential.__init__ v_h r_h a b c R = traise ZeroDivisionError.
Proof.
  intros H. unfold _LeeSutoNFWPotential.__init__.
  repeat case_decide; try reflexivity. by destruct H.
Qed.

Lemma kernel_init_orthogonal R :
  a <> 0 -> r_h <> 0 -> orthogonal R ->
  _LeeSutoNFWPotential.__init__ v_h r_h a b c R
  = ([call_linalg_inv],
     ok (_LeeSutoNFWPotential.attributes v_h r_h a b c R (transpose R))).
Proof.
  intros Ha Hr HR. unfold _LeeSutoNFWPotential.__init__.
  repeat case_decide; try done.
  unfold tbind, tcall. by rewrite (linalg_inv_orthogonal R HR).
Qed.

Lemma model_init_zero_divisor phi theta psi :
  a = 0 \/ r_h = 0 ->
  (LeeSutoNFWPotential.__init__ v_h r_h a b c phi theta psi).2
  = raise ZeroDivisionError.
Proof.
  intros H. unfold LeeSutoNFWPotential.__init__.
  destruct (frame_orthogonal phi theta psi) as (calls & R & -> & _).
  unfold tbind at 1. unfold CPotential.__init__. cbv beta iota delta [ok].
  by rewrite (kernel_init_zero_divisor R H).
Qed.

Lemma model_init_ok phi theta psi :
  a <> 0 -> r_h <> 0 ->
  exists calls R,
    LeeSutoNFWPotential.frame phi theta psi = (calls, ok R)
    /\ orthogonal R
    /\ LeeSutoNFWPotential.__init__ v_h r_h a b c phi theta psi
       = (calls ++ [call_linalg_inv],
          ok {| CPotential.parameters := (v_h, r_h, a, b, c, R);
                CPotential.c_instance :=
                  _LeeSutoNFWPotential.attributes
                    v_h r_h a b c R (transpose R) |}).
Proof.
  intros Ha Hr.
  destruct (frame_orthogonal phi theta psi) as (calls & R & HF & HR & _).
  exists calls, R. split; [exact HF|]. split; [exact HR|].
  unfold LeeSutoNFWPotential.__init__. rewrite HF.
  unfold tbind at 1. unfold CPotential.__init__. cbv beta iota delta [ok].
  by rewrite (kernel_init_orthogonal R Ha Hr HR).
Qed.

End Construction.

(** C6, as the code has it.  No constructor validates its parameters and none
    raises [InvalidParameter], the kernel constructor
    [_LeeSutoNFWPotential.__init__] on any frame included.  The Hernquist and
    Miyamoto-Nagai models are built for all real parameters.  The Lee-Suto
    model is built for all real parameters and angles with [a <> 0] and
    [r_h <> 0], whatever the signs of [a], [b] and [c]; with [a = 0] or
    [r_h = 0] construction raises [ZeroDivisionError]. *)
Theorem construction_validates_nothing
    (G m c0 a0 b0 : real) (v_h r_h a b c phi theta psi : real) (F : mat3) :
  let built := LeeSutoNFWPotential.__init__ v_h r_h a b c phi theta psi in
  (exists M, (HernquistPotential.__init__ m c0 G).2 = ok M)
  /\ (exists M, (MiyamotoNagaiPotential.__init__ m a0 b0 G).2 = ok M)
  /\ (_LeeSutoNFWPotential.__init__ v_h r_h a b c F).2
     <> raise InvalidParameter
  /\ built.2 <> raise InvalidParameter
  /\ (a = 0 \/ r_h = 0 -> built.2 = raise ZeroDivisionError)
  /\ (a <> 0 -> r_h <> 0 ->
      exists M, built.2 = ok M
        /\ CPotential.c_instance M
           = _LeeSutoNFWPotential.attributes v_h r_h a b c
               (_LeeSutoNFWPotential.R (CPotential.c_instance M))
               (_LeeSutoNFWPotential.Rinv (CPotential.c_instance M))).
Proof.
  intros built.
  assert (Hz : a = 0 \/ r_h = 0 -> built.2 = raise ZeroDivisionError)
    by apply model_init_zero_divisor.
  assert (Hok : a <> 0 -> r_h <> 0 ->
      exists M, built.2 = ok M
        /\ CPotential.c_instance M
           = _LeeSutoNFWPotential.attributes v_h r_h a b c
               (_LeeSutoNFWPotential.R (CPotential.c_instance M))
               (_LeeSutoNFWPotential.Rinv (CPotential.c_instance M))).
  { intros Ha Hr.
    destruct (model_init_ok v_h r_h a b c phi theta psi Ha Hr)
      as (calls & R & _ & _ & HM).
    eexists. subst built. rewrite HM. split; reflexivity. }
  split; [by eexists|]. split; [by eexists|]. split.
  { unfold _LeeSutoNFWPotential.__init__.
    repeat case_decide; try discriminate.
    unfold tbind, tcall. destruct (linalg_inv F); discriminate. }
  split; [|by split].
  destruct (decide (a = 0)) as [Ha|Ha]; [rewrite Hz by (by left); discriminate|].
  destruct (decide (r_h = 0)) as [Hr|Hr];
    [rewrite Hz by (by right); discriminate|].
  destruct (Hok Ha Hr) as (M & -> & _). discriminate.
Qed.

Lemma construction_validates_nothing_witness :
  exists M, (LeeSutoNFWPotential.__init__ 1 1 (-1) (-1) 0 0 0 0).2 = ok M.
Proof.
  destruct (construction_validates_nothing 1 1 1 1 1 1 1 (-1) (-1) 0 0 0 0
              eye3) as (_ & _ & _ & _ & _ & Hok).
  destruct Hok as (M & HM & _); [lra|lra|].
  exists M. exact HM.
Defined.

(** Against C6 as stated: with the shape axis [b = -1] the Lee-Suto
    constructor does not raise [InvalidParameter]. *)
Lemma negative_axis_is_accepted :
  ~ (forall v_h r_h a b c phi theta psi : real,
       a <= 0 \/ b <= 0 \/ c <= 0 ->
       (LeeSutoNFWPotential.__init__ v_h r_h a b c phi theta psi).2
       = raise InvalidParameter).
Proof.
  intros H. specialize (H 1 1 1 (-1) 1 0 0 0).
  destruct (model_init_ok 1 1 1 (-1) 1 0 0 0) as (calls & R & _ & _ & HM);
    [lra|lra|].
  rewrite HM in H. cbn in H.
  assert (Hb : 1 <= 0 \/ -1 <= 0 \/ 1 <= 0) by (right; left; lra).
  specialize (H Hb). discriminate.
Qed.

(** ** The frame of the Lee-Suto model *)

Section Frame.

Import _LeeSutoNFWPotential.

Lemma value_at_native k x y z :
  value_at k x y z
  = let '(X, Y, Z) := mat_vec (R k) (x, y, z) in value_native k X Y Z.
Proof. reflexivity. Qed.

Lemma gradient_at_native k x y z :
  gradient_at k x y z
  = let '(X, Y, Z) := mat_vec (R k) (x, y, z) in
    mat_vec (Rinv k) (gradient_native k X Y Z).
Proof.
  unfold gradient_at, mat_vec at 1.
  by destruct (gradient_native k _ _ _) as [[ax ay] az].
Qed.

(** With the identity as frame and inverse, the loops evaluate the closed
    forms at the position itself. *)
Lemma identity_frame_at k x y z :
  R k = eye3 -> Rinv k = eye3 ->
  value_at k x y z = value_native k x y z
  /\ gradient_at k x y z = gradient_native k x y z.
Proof.
  intros HR HRi.
  rewrite value_at_native, gradient_at_native, HR, HRi, mat_vec_eye.
  by rewrite mat_vec_eye.
Qed.

(** The kernel with an orthogonal frame [F], evaluated at the position
    [transpose F * p], against the kernel with the identity frame at [p]:
    equal values, and a gradient that is rotated like the position. *)
Lemma rotated_eval v_h r_h a b c F x y z :
  orthogonal F ->
  let k := attributes v_h r_h a b c F (transpose F) in
  let k0 := attributes v_h r_h a b c eye3 eye3 in
  let '(x', y', z') := mat_vec (Rinv k) (x, y, z) in
  value_at k x' y' z' = value_at k0 x y z
  /\ gradient_at k x' y' z' = mat_vec (Rinv k) (gradient_at k0 x y z).
Proof.
  intros HF k k0.
  destruct (mat_vec (Rinv k) (x, y, z)) as [[x' y'] z'] eqn:E.
  assert (Hback : mat_vec (R k) (x', y', z') = (x, y, z)).
  { rewrite <- E. cbn [k R Rinv attributes].
    by rewrite <- mat_vec_dot, HF, mat_vec_eye. }
  destruct (identity_frame_at k0 x y z eq_refl eq_refl) as [-> ->].
  rewrite value_at_native, gradient_at_native, Hback. by split.
Qed.

End Frame.

(** C5, as the code has it.  With all three angles zero and [a <> 0],
    [r_h <> 0]: the rotation matrices are not built, the frame is
    [np.eye(3)], the inversion is still carried out (the calls made are
    [np.eye] and then [np.linalg.inv]), the stored [R] and [Rinv] are both
    the identity, the kernel is the one that [_LeeSutoNFWPotential.__init__]
    builds from the identity matrix, and its value and gradient are the
    closed forms at the position itself. *)
Theorem zero_angles_identity_frame (v_h r_h a b c : real) :
  a <> 0 -> r_h <> 0 ->
  exists k,
    LeeSutoNFWPotential.__init__ v_h r_h a b c 0 0 0
    = ([call_eye; call_linalg_inv],
       ok {| CPotential.parameters := (v_h, r_h, a, b, c, eye3);
             CPotential.c_instance := k |})
    /\ _LeeSutoNFWPotential.R k = eye3
    /\ _LeeSutoNFWPotential.Rinv k = eye3
    /\ _LeeSutoNFWPotential.__init__ v_h r_h a b c eye3
       = ([call_linalg_inv], ok k)
    /\ forall x y z,
         _LeeSutoNFWPotential.value_at k x y z
         = _LeeSutoNFWPotential.value_native k x y z
         /\ _LeeSutoNFWPotential.gradient_at k x y z
            = _LeeSutoNFWPotential.gradient_native k x y z.
Proof.
  intros Ha Hr.
  destruct (model_init_ok v_h r_h a b c 0 0 0 Ha Hr)
    as (calls & F & HF & _ & HM).
  rewrite frame_zero in HF. injection HF as <- <-.
  exists (_LeeSutoNFWPotential.attributes v_h r_h a b c eye3 eye3).
  split; [exact HM|]. split; [reflexivity|]. split; [reflexivity|].
  split; [exact (kernel_init_orthogonal v_h r_h a b c eye3 Ha Hr orthogonal_eye)|].
  intros x y z. by apply identity_frame_at.
Qed.

Lemma zero_angles_identity_frame_witness :
  exists k,
    LeeSutoNFWPotential.__init__ 1 2 3 2 1 0 0 0
    = ([call_eye; call_linalg_inv],
       ok {| CPotential.parameters := (1, 2, 3, 2, 1, eye3);
             CPotential.c_instance := k |})
    /\ _LeeSutoNFWPotential.R k = eye3
    /\ _LeeSutoNFWPotential.Rinv k = eye3.
Proof.
  destruct (zero_angles_identity_frame 1 2 3 2 1) as (k & HM & HR & HRi & _).
  - lra.
  - lra.
  - exists k. split; [exact HM|]. split; [exact HR|exact HRi].
Defined.

(** Against C5 as stated: the inversion is not skipped when the angles are
    zero. *)
Lemma inversion_is_not_skipped :
  ~ (forall v_h r_h a b c : real,
       ~ In call_linalg_inv
           (LeeSutoNFWPotential.__init__ v_h r_h a b c 0 0 0).1).
Proof.
  intros H. apply (H 1 1 1 1 1).
  destruct (model_init_ok 1 1 1 1 1 0 0 0) as (calls & F & _ & _ & ->);
    [lra|lra|].
  cbn. apply in_or_app. right. by left.
Qed.

(** ** A rotated Lee-Suto model at rotated positions *)

(** The native gradient of the round unit halo at [(1,0,0)]. *)
Lemma gradient_native_unit_x F Fi :
  _LeeSutoNFWPotential.gradient_native
    (_LeeSutoNFWPotential.attributes 1 1 1 1 1 F Fi) 1 0 0
  = (ln 2 - 1 / 2, 0, 0).
Proof.
  unfold _LeeSutoNFWPotential.gradient_native, log.
  cbn [_LeeSutoNFWPotential.attributes _LeeSutoNFWPotential.v_h2
       _LeeSutoNFWPotential.r_h _LeeSutoNFWPotential.r_h2
       _LeeSutoNFWPotential.e_b2 _LeeSutoNFWPotential.e_c2].
  rewrite sqrt_unit_x. replace ((1 + 1) / 1) with 2 by field.
  f_equal; [f_equal|]; field.
Qed.

(** The frame for the angles [(phi, theta, psi) = (PI, 0, 0)]: a half turn
    about the z axis. *)
Lemma frame_half_turn :
  exists calls,
    LeeSutoNFWPotential.frame PI 0 0
    = (calls, ok (Mat3 (-1) 0 0  0 (-1) 0  0 0 1)).
Proof.
  unfold LeeSutoNFWPotential.frame. case_decide as H.
  - eexists. unfold tbind, tcall, rotation_matrix. cbn.
    rewrite cos_0, sin_0, cos_PI, sin_PI.
    match goal with
    | |- (_, ok ?A) = (_, ok ?B) => replace A with B; [reflexivity|]
    end.
    cbv [dot m00 m01 m02 m10 m11 m12 m20 m21 m22]. f_equal; ring.
  - exfalso. apply H. right; left. apply PI_neq0.
Qed.

(** C4, as the code has it.  For all angles, with [a <> 0] and [r_h <> 0],
    let [k] be the kernel of the model built with the angles and [k0] the
    kernel of the model built with zero angles.  At every position [p], the
    value of [k] at [Rinv * p] equals the value of [k0] at [p], and the
    gradient of [k] at [Rinv * p] equals [Rinv] applied to the gradient of
    [k0] at [p]: the gradient turns with the position. *)
Theorem rotated_model_at_rotated_position
    (v_h r_h a b c phi theta psi : real) :
  a <> 0 -> r_h <> 0 ->
  exists M M0,
    (LeeSutoNFWPotential.__init__ v_h r_h a b c phi theta psi).2 = ok M
    /\ (LeeSutoNFWPotential.__init__ v_h r_h a b c 0 0 0).2 = ok M0
    /\ forall x y z,
         let k := CPotential.c_instance M in
         let k0 := CPotential.c_instance M0 in
         let '(x', y', z') :=
           mat_vec (_LeeSutoNFWPotential.Rinv k) (x, y, z) in
         _LeeSutoNFWPotential.value_at k x' y' z'
         = _LeeSutoNFWPotential.value_at k0 x y z
         /\ _LeeSutoNFWPotential.gradient_at k x' y' z'
            = mat_vec (_LeeSutoNFWPotential.Rinv k)
                (_LeeSutoNFWPotential.gradient_at k0 x y z).
Proof.
  intros Ha Hr.
  destruct (model_init_ok v_h r_h a b c phi theta psi Ha Hr)
    as (calls & F & _ & HF & HM).
  destruct (model_init_ok v_h r_h a b c 0 0 0 Ha Hr)
    as (calls0 & F0 & HF0 & _ & HM0).
  rewrite frame_zero in HF0. injection HF0 as <- <-.
  eexists _, _. rewrite HM, HM0. split; [reflexivity|]. split; [reflexivity|].
  intros x y z. cbn [CPotential.c_instance].
  exact (rotated_eval v_h r_h a b c F x y z HF).
Qed.

Lemma rotated_model_at_rotated_position_witness :
  exists M M0,
    (LeeSutoNFWPotential.__init__ 1 1 1 1 1 PI 0 0).2 = ok M
    /\ (LeeSutoNFWPotential.__init__ 1 1 1 1 1 0 0 0).2 = ok M0.
Proof.
  destruct (rotated_model_at_rotated_position 1 1 1 1 1 PI 0 0)
    as (M & M0 & HM & HM0 & _).
  - lra.
  - lra.
  - exists M, M0. split; [exact HM|exact HM0].
Defined.

(** Against C4 as stated: after a half turn about z, the gradient of the
    rotated model at the rotated position is the opposite of, not equal to,
    the gradient of the unrotated model at [(1,0,0)]. *)
Lemma rotated_gradient_differs :
  ~ (forall (v_h r_h a b c phi theta psi : real) M M0 (x y z : real),
       (LeeSutoNFWPotential.__init__ v_h r_h a b c phi theta psi).2 = ok M ->
       (LeeSutoNFWPotential.__init__ v_h r_h a b c 0 0 0).2 = ok M0 ->
       (x, y, z) <> (0, 0, 0) ->
       let k := CPotential.c_instance M in
       let k0 := CPotential.c_instance M0 in
       let '(x', y', z') :=
         mat_vec (_LeeSutoNFWPotential.Rinv k) (x, y, z) in
       _LeeSutoNFWPotential.value_at k x' y' z'
       = _LeeSutoNFWPotential.value_at k0 x y z
       /\ _LeeSutoNFWPotential.gradient_at k x' y' z'
          = _LeeSutoNFWPotential.gradient_at k0 x y z).
Proof.
  intros H.
  destruct (model_init_ok 1 1 1 1 1 PI 0 0) as (calls & F & HF & HFo & HM);
    [lra|lra|].
  destruct (model_init_ok 1 1 1 1 1 0 0 0) as (calls0 & F0 & HF0 & _ & HM0);
    [lra|lra|].
  rewrite frame_zero in HF0. injection HF0 as <- <-.
  destruct frame_half_turn as (calls' & HF'). rewrite HF' in HF.
  injection HF as <- <-.
  apply (f_equal snd) in HM, HM0.
  specialize (H 1 1 1 1 1 PI 0 0 _ _ 1 0 0 HM HM0).
  cbn [CPotential.c_instance] in H.
  pose proof (rotated_eval 1 1 1 1 1 _ 1 0 0 HFo) as Hrot. cbv zeta in Hrot, H.
  destruct (mat_vec _ (1, 0, 0)) as [[x' y'] z'] eqn:E.
  destruct H as [_ Hg]; [intros [= H1]; lra|].
  destruct Hrot as [_ Hrot]. rewrite Hg in Hrot.
  destruct (identity_frame_at
              (_LeeSutoNFWPotential.attributes 1 1 1 1 1 eye3 eye3) 1 0 0
              eq_refl eq_refl) as [_ Hid].
  change (transpose eye3) with eye3 in Hrot.
  rewrite Hid, gradient_native_unit_x in Hrot.
  cbn in Hrot. injection Hrot as Hx _ _.
  pose proof ln_lt_2. lra.
Qed.

(** ** Curvature *)

(** C7.  For each of the three kernels, bound in a model, and every position
    and output buffer, batch size and heap, requesting the hessian fails with
    [NotImplemented]: no heap, hence no value of any kind, is returned. *)
Theorem hessian_not_implemented
    {P1 P2 P3 : Type}
    (hq : CPotential.t P1 _HernquistPotential.t)
    (mn : CPotential.t P2 _MiyamotoNagaiPotential.t)
    (ls : CPotential.t P3 _LeeSutoNFWPotential.t)
    (r hess : nat) (n : Z) (h : heap) :
  hessian hq r hess n h = raise NotImplemented
  /\ hessian mn r hess n h = raise NotImplemented
  /\ hessian ls r hess n h = raise NotImplemented.
Proof. by split; [|split]. Qed.

(** ** Symmetries *)

(** C8.  Two positions at the same distance from the origin have the same
    Hernquist value, and the Hernquist gradient at each is the position
    scaled by one and the same factor; two positions with the same
    [x^2 + y^2] and the same [z] have the same Miyamoto-Nagai value. *)
Theorem hernquist_spherical_miyamoto_nagai_axial
    (hq : _HernquistPotential.t) (mn : _MiyamotoNagaiPotential.t)
    (px py pz qx qy qz : real) :
  (norm3 px py pz = norm3 qx qy qz ->
     _HernquistPotential.value_at hq px py pz
     = _HernquistPotential.value_at hq qx qy qz
     /\ exists fac,
          _HernquistPotential.gradient_at hq px py pz
          = (fac * px, fac * py, fac * pz)
          /\ _HernquistPotential.gradient_at hq qx qy qz
             = (fac * qx, fac * qy, fac * qz))
  /\ (px*px + py*py = qx*qx + qy*qy -> pz = qz ->
        _MiyamotoNagaiPotential.value_at mn px py pz
        = _MiyamotoNagaiPotential.value_at mn qx qy qz).
Proof.
  split.
  - unfold norm3, _HernquistPotential.value_at,
      _HernquistPotential.gradient_at. cbv zeta. intros ->.
    split; [reflexivity|]. eexists. split; reflexivity.
  - unfold _MiyamotoNagaiPotential.value_at,
      _MiyamotoNagaiPotential.value_den. cbv zeta. by intros -> ->.
Qed.

Lemma hernquist_spherical_miyamoto_nagai_axial_witness :
  _HernquistPotential.value_at (_HernquistPotential.__init__ 1 1 1) 1 0 0
  = _HernquistPotential.value_at (_HernquistPotential.__init__ 1 1 1) 0 1 0
  /\ _MiyamotoNagaiPotential.value_at
       (_MiyamotoNagaiPotential.__init__ 1 1 1 1) 1 0 2
     = _MiyamotoNagaiPotential.value_at
         (_MiyamotoNagaiPotential.__init__ 1 1 1 1) 0 1 2.
Proof.
  destruct (hernquist_spherical_miyamoto_nagai_axial
              (_HernquistPotential.__init__ 1 1 1)
              (_MiyamotoNagaiPotential.__init__ 1 1 1 1)
              1 0 0 0 1 0) as [Hs _].
  destruct (hernquist_spherical_miyamoto_nagai_axial
              (_HernquistPotential.__init__ 1 1 1)
              (_MiyamotoNagaiPotential.__init__ 1 1 1 1)
              1 0 2 0 1 2) as [_ Ha].
  split.
  - apply Hs. unfold norm3. f_equal. ring.
  - apply Ha; [ring|reflexivity].
Defined.

(** ** The divisors of the Miyamoto-Nagai kernel *)

Section MiyamotoNagaiDivisors.

Import _MiyamotoNagaiPotential.

Lemma sqrtz_zero G m a : sqrtz (__init__ G m a 0) 0 = 0.
Proof.
  unfold sqrtz. cbn. replace (0*0 + 0*0) with 0 by ring. apply sqrt_0.
Qed.

Lemma sqrtz_pos G m a b z : b <> 0 -> 0 < sqrtz (__init__ G m a b) z.
Proof.
  intros Hb. unfold sqrtz. cbn. apply sqrt_lt_R0. nra.
Qed.

Lemma value_den_flat G m a x y :
  value_den (__init__ G m a 0) x y 0 = sqrt (x*x + y*y + a*a).
Proof.
  unfold value_den. cbn. replace (0*0 + 0*0) with 0 by ring.
  rewrite sqrt_0. f_equal. ring.
Qed.

End MiyamotoNagaiDivisors.

(** The divisors in terms of what the kernel has stored. *)
Lemma sqrtz_vanishes_iff (mn : _MiyamotoNagaiPotential.t) z :
  0 <= _MiyamotoNagaiPotential.b2 mn ->
  _MiyamotoNagaiPotential.sqrtz mn z = 0
  <-> z*z + _MiyamotoNagaiPotential.b2 mn = 0.
Proof.
  intros Hb. unfold _MiyamotoNagaiPotential.sqrtz. split.
  - intros Hs. apply sqrt_eq_0 in Hs; [exact Hs|nra].
  - intros ->. apply sqrt_0.
Qed.

Lemma sqrtz_positive (mn : _MiyamotoNagaiPotential.t) z :
  0 < _MiyamotoNagaiPotential.b2 mn -> 0 < _MiyamotoNagaiPotential.sqrtz mn z.
Proof.
  intros Hb. unfold _MiyamotoNagaiPotential.sqrtz. apply sqrt_lt_R0. nra.
Qed.

Lemma value_den_flat_stored (mn : _MiyamotoNagaiPotential.t) x y :
  _MiyamotoNagaiPotential.b2 mn = 0 ->
  _MiyamotoNagaiPotential.value_den mn x y 0
  = sqrt (x*x + y*y + _MiyamotoNagaiPotential.a mn
                      * _MiyamotoNagaiPotential.a mn).
Proof.
  intros Hb. unfold _MiyamotoNagaiPotential.value_den. cbv zeta. rewrite Hb.
  replace (0*0 + 0) with 0 by ring. rewrite sqrt_0. f_equal. ring.
Qed.

(** C10, as the code has it, stated on the [b2] the kernel has stored.
    The kernel constructed with [b = 0] stores [b2 = 0].  For a kernel with
    [b2 >= 0] the divisor [sqrtz] of [a / sqrtz] in the z-component of the
    gradient is zero exactly where the sum [z*z + b2] is zero; so with
    [b2 = 0] it is zero at every position with [z = 0], and with [b2 > 0] it
    is positive at every position.  With [b2 = 0] and [z = 0] the divisor of
    the value is non-zero exactly when the sum [x*x + y*y + a*a] is
    non-zero. *)
Theorem miyamoto_nagai_flat_disk_divisors
    (G m a : real) (mn : _MiyamotoNagaiPotential.t) (x y z : real) :
  _MiyamotoNagaiPotential.b2 (_MiyamotoNagaiPotential.__init__ G m a 0) = 0
  /\ (0 <= _MiyamotoNagaiPotential.b2 mn ->
      (_MiyamotoNagaiPotential.sqrtz mn z = 0
       <-> z*z + _MiyamotoNagaiPotential.b2 mn = 0))
  /\ (_MiyamotoNagaiPotential.b2 mn = 0 ->
      _MiyamotoNagaiPotential.sqrtz mn 0 = 0
      /\ (_MiyamotoNagaiPotential.value_den mn x y 0 <> 0
          <-> x*x + y*y + _MiyamotoNagaiPotential.a mn
                          * _MiyamotoNagaiPotential.a mn <> 0))
  /\ (0 < _MiyamotoNagaiPotential.b2 mn ->
      0 < _MiyamotoNagaiPotential.sqrtz mn z).
Proof.
  split; [cbn; ring|]. split; [apply sqrtz_vanishes_iff|].
  split; [|apply sqrtz_positive].
  intros Hb. split.
  - apply sqrtz_vanishes_iff; [lra|]. rewrite Hb. ring.
  - rewrite (value_den_flat_stored mn x y Hb). split.
    + intros Hs Hz. apply Hs. rewrite Hz. apply sqrt_0.
    + intros Hne Hs. apply Hne. apply sqrt_eq_0 in Hs; [exact Hs|nra].
Qed.

Lemma miyamoto_nagai_flat_disk_divisors_witness :
  0 < _MiyamotoNagaiPotential.sqrtz
        (_MiyamotoNagaiPotential.__init__ 1 1 1 2) 0.
Proof.
  destruct (miyamoto_nagai_flat_disk_divisors 1 1 1
              (_MiyamotoNagaiPotential.__init__ 1 1 1 2) 0 0 0)
    as (_ & _ & _ & Hb).
  apply Hb. cbn. lra.
Defined.

(** Against C10 as stated: with [a = 0] and [b = 0] the value at the origin
    is itself a quotient by zero. *)
Lemma flat_disk_value_divisor_vanishes :
  ~ (forall G m a x y : real,
       _MiyamotoNagaiPotential.value_den
         (_MiyamotoNagaiPotential.__init__ G m a 0) x y 0 <> 0).
Proof.
  intros H. apply (H 1 1 0 0 0). rewrite value_den_flat.
  replace (0*0 + 0*0 + 0*0) with 0 by ring. apply sqrt_0.
Qed.

(** ** Derivatives by reflection *)

Lemma eval_derivable e t :
  regular e t -> derivable_pt_lim (eval e) t (dval e t).
Proof.
  induction e as [|k|a IHa b IHb|a IHa b IHb|a IHa b IHb|a IHa b IHb
                  |a IHa|a IHa|a IHa|a IHa n]; cbn [regular dval].
  - intros _. exact (derivable_pt_lim_id t).
  - intros _. exact (derivable_pt_lim_const k t).
  - intros [Ha Hb].
    exact (derivable_pt_lim_plus (eval a) (eval b) t _ _ (IHa Ha) (IHb Hb)).
  - intros [Ha Hb].
    exact (derivable_pt_lim_minus (eval a) (eval b) t _ _ (IHa Ha) (IHb Hb)).
  - intros [Ha Hb].
    exact (derivable_pt_lim_mult (eval a) (eval b) t _ _ (IHa Ha) (IHb Hb)).
  - intros (Ha & Hb & Hne).
    exact (derivable_pt_lim_div (eval a) (eval b) t _ _ (IHa Ha) (IHb Hb) Hne).
  - intros Ha. exact (derivable_pt_lim_opp (eval a) t _ (IHa Ha)).
  - intros [Ha Hpos].
    exact (derivable_pt_lim_comp (eval a) sqrt t _ _ (IHa Ha)
             (derivable_pt_lim_sqrt _ Hpos)).
  - intros [Ha Hpos].
    exact (derivable_pt_lim_comp (eval a) ln t _ _ (IHa Ha)
             (derivable_pt_lim_ln _ Hpos)).
  - intros Ha.
    exact (derivable_pt_lim_comp (eval a) (fun y => y ^ n) t _ _ (IHa Ha)
             (derivable_pt_lim_pow _ n)).
Qed.

Lemma eval_derivable_to e t l :
  regular e t -> dval e t = l -> derivable_pt_lim (eval e) t l.
Proof. intros He <-. by apply eval_derivable. Qed.

(** The expression of a function of one variable, read off its body. *)
Ltac reify f :=
  match f with
  | (fun t => t) => constr:(Var)
  | (fun t => ?k) => constr:(Const k)
  | (fun t => @?a t + @?b t) =>
      let ea := reify a in let eb := reify b in constr:(Add ea eb)
  | (fun t => @?a t - @?b t) =>
      let ea := reify a in let eb := reify b in constr:(Sub ea eb)
  | (fun t => @?a t * @?b t) =>
      let ea := reify a in let eb := reify b in constr:(Mul ea eb)
  | (fun t => @?a t / @?b t) =>
      let ea := reify a in let eb := reify b in constr:(Div ea eb)
  | (fun t => - @?a t) => let ea := reify a in constr:(Neg ea)
  | (fun t => sqrt (@?a t)) => let ea := reify a in constr:(Sqrt ea)
  | (fun t => ln (@?a t)) => let ea := reify a in constr:(Ln ea)
  | (fun t => @?a t ^ ?n) => let ea := reify a in constr:(Pow ea n)
  end.

(** Reduce a goal [derivable_pt_lim f x l] to the side conditions of the
    rules and an equation between real numbers. *)
Ltac differentiate :=
  lazymatch goal with
  | |- derivable_pt_lim ?f ?x ?l =>
      let e := reify f in
      change (derivable_pt_lim (eval e) x l);
      apply eval_derivable_to; cbn [regular dval eval pred]
  end.

(** ** The gradients are the derivatives of the values *)

Section HernquistGradient.

Import _HernquistPotential.

Lemma hernquist_gradient self x y z :
  0 < sqrt (x*x + y*y + z*z) -> sqrt (x*x + y*y + z*z) + c self <> 0 ->
  is_gradient (value_at self) x y z (gradient_at self x y z).
Proof.
  intros Hpos Hne.
  assert (HS : 0 < x*x + y*y + z*z)
    by (destruct (Rle_or_lt (x*x + y*y + z*z) 0) as [Hle|]; [|done];
        rewrite (sqrt_neg_0 _ Hle) in Hpos; lra).
  unfold is_gradient, value_at, gradient_at. cbv zeta. cbn [fst snd].
  repeat split;
    (differentiate;
     [ repeat split; try done; lra
     | unfold Rsqr; set (s := sqrt (x*x + y*y + z*z)) in *; clearbody s;
       field; split; lra ]).
Qed.

End HernquistGradient.

Lemma sqrt_nonzero_pos A : sqrt A <> 0 -> 0 < A.
Proof.
  intros Hne. destruct (Rle_or_lt A 0) as [Hle|]; [|done].
  by rewrite (sqrt_neg_0 _ Hle) in Hne.
Qed.

Lemma sqrt_pos_nonzero A : 0 < A -> sqrt A <> 0.
Proof. intros HA. pose proof (sqrt_lt_R0 A HA). lra. Qed.

(** [pow(D, -1.5)] on a positive base. *)
Lemma powf_minus_three_halves D : 0 < D -> powf D (-1.5) = / (D * sqrt D).
Proof.
  intros HD. unfold powf. replace (-1.5) with (- (1 + / 2)) by lra.
  by rewrite Rpower_Ropp, Rpower_plus, Rpower_1, Rpower_sqrt.
Qed.

Section MiyamotoNagaiGradient.

Import _MiyamotoNagaiPotential.

Lemma miyamoto_nagai_gradient self x y z :
  sqrtz self z <> 0 -> value_den self x y z <> 0 ->
  is_gradient (value_at self) x y z (gradient_at self x y z).
Proof.
  unfold sqrtz, value_den. cbv zeta. intros Hq Hs.
  pose proof (sqrt_nonzero_pos _ Hq) as Hq2.
  pose proof (sqrt_nonzero_pos _ Hs) as Hs2.
  unfold is_gradient, value_at, value_den, gradient_at, fac, zd, sqrtz.
  cbv zeta. cbn [fst snd]. rewrite (powf_minus_three_halves _ Hs2).
  set (q := sqrt (z*z + b2 self)) in *.
  set (s := sqrt (x*x + y*y + (a self + q) * (a self + q))) in *.
  assert (HD : x*x + y*y + (a self + q) * (a self + q) = s * s)
    by (unfold s; rewrite sqrt_sqrt; lra).
  repeat split;
    (differentiate;
     [ repeat split; try done; lra
     | fold q; fold s; rewrite ?HD; unfold Rsqr; clearbody s q;
       field; lra ]).
Qed.

End MiyamotoNagaiGradient.

Section LeeSutoGradient.

Import _LeeSutoNFWPotential.

Variables v_h r_h a b c : real.
Hypothesis Hrh : r_h <> 0.

(** Side conditions of the rules, once the radius is named. *)
Local Ltac nonzero :=
  repeat first [ assumption | lra
               | apply Rmult_integral_contrapositive_currified
               | apply pow_nonzero ].

Lemma radius_facts r :
  0 < r -> 0 < r / r_h + 1 ->
  r / r_h <> 0 /\ r + r_h <> 0 /\ (r + r_h) / r_h = r / r_h + 1.
Proof.
  intros Hr Hu.
  assert (Hln : (r + r_h) / r_h = r / r_h + 1) by (by field).
  split; [|split; [|exact Hln]].
  - unfold Rdiv. apply Rmult_integral_contrapositive_currified; [lra|].
    by apply Rinv_neq_0_compat.
  - intros H0. rewrite <- Hln, H0 in Hu. unfold Rdiv in Hu. lra.
Qed.

(** In the frame of the halo: [gradient_native] is the gradient of
    [value_native]. *)
Lemma lee_suto_native_gradient F Fi x y z :
  let k := attributes v_h r_h a b c F Fi in
  0 < norm3 x y z -> 0 < norm3 x y z / r_h + 1 ->
  is_gradient (value_native k) x y z (gradient_native k x y z).
Proof.
  intros k. unfold norm3. set (r := sqrt (x*x + y*y + z*z)). intros Hr Hu.
  assert (HS : 0 < x*x + y*y + z*z) by (apply sqrt_nonzero_pos; fold r; lra).
  destruct (radius_facts r Hr Hu) as (Hu0 & Hx0 & Hln).
  assert (HSr : x*x + y*y + z*z = r * r) by (unfold r; rewrite sqrt_sqrt; lra).
  unfold is_gradient, value_native, gradient_native, log. cbv zeta.
  cbn [k attributes v_h2 _LeeSutoNFWPotential.r_h r_h2 e_b2 e_c2 fst snd].
  set (eb := 1 - (b / a) ^ 2). set (ec := 1 - (c / a) ^ 2).
  set (vh2 := v_h * v_h). clearbody eb ec vh2.
  repeat split;
    (differentiate; fold r;
     [ repeat split; nonzero
     | rewrite ?HSr, ?Hln; unfold Rsqr; cbn [INR];
       set (L := ln (r / r_h + 1)); clearbody L; clear HSr HS Hln;
       clearbody r; field; repeat split; lra ]).
Qed.

(** In the frame of the caller, when the stored inverse is the transpose of
    the frame. *)
Lemma lee_suto_gradient F x y z :
  let k := attributes v_h r_h a b c F (transpose F) in
  let '(X, Y, Z) := mat_vec F (x, y, z) in
  0 < norm3 X Y Z -> 0 < norm3 X Y Z / r_h + 1 ->
  is_gradient (value_at k) x y z (gradient_at k x y z).
Proof.
  intros k. unfold mat_vec, norm3.
  set (X := m00 F * x + m01 F * y + m02 F * z).
  set (Y := m10 F * x + m11 F * y + m12 F * z).
  set (Z := m20 F * x + m21 F * y + m22 F * z).
  set (r := sqrt (X*X + Y*Y + Z*Z)). intros Hr Hu.
  assert (HS : 0 < X*X + Y*Y + Z*Z) by (apply sqrt_nonzero_pos; fold r; lra).
  destruct (radius_facts r Hr Hu) as (Hu0 & Hx0 & Hln).
  assert (HSr : X*X + Y*Y + Z*Z = r * r) by (unfold r; rewrite sqrt_sqrt; lra).
  unfold is_gradient, gradient_at, value_at, value_native, gradient_native, log.
  cbv zeta.
  cbn [k attributes R Rinv v_h2 _LeeSutoNFWPotential.r_h r_h2 e_b2 e_c2
       transpose fst snd].
  destruct F as [f00 f01 f02 f10 f11 f12 f20 f21 f22].
  cbn [transpose m00 m01 m02 m10 m11 m12 m20 m21 m22] in *.
  set (eb := 1 - (b / a) ^ 2). set (ec := 1 - (c / a) ^ 2).
  set (vh2 := v_h * v_h). clearbody eb ec vh2.
  repeat split;
    (differentiate; fold X Y Z; fold r;
     [ repeat split; nonzero
     | rewrite ?HSr, ?Hln; unfold Rsqr; cbn [INR];
       set (L := ln (r / r_h + 1)); clearbody L; clear HSr HS Hln;
       clearbody r X Y Z; field; repeat split; lra ]).
Qed.

End LeeSutoGradient.

(** C1.  At every position where the formulas are not singular, the gradient
    each kernel computes is the gradient of the value it computes: its three
    components are the partial derivatives of the value with respect to
    [x], [y] and [z].
    - Hernquist: where [R > 0] and [R + c <> 0].
    - Miyamoto-Nagai: where the divisors [sqrtz] and
      [sqrt(x^2+y^2+zd^2)] are not zero.
    - Lee-Suto, for the kernel built by [__init__] from an orthogonal frame,
      and so for the kernel of every model built by
      [LeeSutoNFWPotential.__init__], whatever the angles: where the radius
      [r] in the frame of the halo is positive and [r/r_h + 1], the argument
      of the logarithm, is positive.  There the closed form of [_gradient] is
      moreover the gradient of the closed form of [_value] in the frame of
      the halo. *)
Theorem gradients_are_exact_derivatives
    (hq : _HernquistPotential.t) (mn : _MiyamotoNagaiPotential.t)
    (v_h r_h a b c : real) (F : mat3) (ls : _LeeSutoNFWPotential.t)
    (phi theta psi : real)
    (M : CPotential.t LeeSutoNFWPotential.params _LeeSutoNFWPotential.t)
    (x y z : real) :
  (0 < norm3 x y z -> norm3 x y z + _HernquistPotential.c hq <> 0 ->
     is_gradient (_HernquistPotential.value_at hq) x y z
       (_HernquistPotential.gradient_at hq x y z))
  /\ (_MiyamotoNagaiPotential.sqrtz mn z <> 0 ->
      _MiyamotoNagaiPotential.value_den mn x y z <> 0 ->
      is_gradient (_MiyamotoNagaiPotential.value_at mn) x y z
        (_MiyamotoNagaiPotential.gradient_at mn x y z))
  /\ (orthogonal F ->
      (_LeeSutoNFWPotential.__init__ v_h r_h a b c F).2 = ok ls ->
      let '(X, Y, Z) := mat_vec F (x, y, z) in
      0 < norm3 X Y Z -> 0 < norm3 X Y Z / r_h + 1 ->
      is_gradient (_LeeSutoNFWPotential.value_at ls) x y z
        (_LeeSutoNFWPotential.gradient_at ls x y z)
      /\ is_gradient (_LeeSutoNFWPotential.value_native ls) X Y Z
           (_LeeSutoNFWPotential.gradient_native ls X Y Z))
  /\ ((LeeSutoNFWPotential.__init__ v_h r_h a b c phi theta psi).2 = ok M ->
      let k := CPotential.c_instance M in
      let '(X, Y, Z) := mat_vec (_LeeSutoNFWPotential.R k) (x, y, z) in
      0 < norm3 X Y Z -> 0 < norm3 X Y Z / r_h + 1 ->
      is_gradient (_LeeSutoNFWPotential.value_at k) x y z
        (_LeeSutoNFWPotential.gradient_at k x y z)).
Proof.
  split; [apply hernquist_gradient|]. split; [apply miyamoto_nagai_gradient|].
  destruct (decide (a = 0 \/ r_h = 0)) as [Hz|Hnz].
  { split.
    - intros _ Hinit.
      rewrite (kernel_init_zero_divisor v_h r_h a b c F Hz) in Hinit.
      discriminate.
    - intros Hinit.
      rewrite (model_init_zero_divisor v_h r_h a b c phi theta psi Hz)
        in Hinit.
      discriminate. }
  assert (Ha : a <> 0) by (intros ->; apply Hnz; by left).
  assert (Hr : r_h <> 0) by (intros ->; apply Hnz; by right).
  split.
  - intros HF Hinit.
    rewrite (kernel_init_orthogonal v_h r_h a b c F Ha Hr HF) in Hinit.
    injection Hinit as <-.
    pose proof (lee_suto_gradient v_h r_h a b c Hr F x y z) as Hworld.
    cbv zeta in Hworld.
    destruct (mat_vec F (x, y, z)) as [[X Y] Z].
    intros Hpos Hlog. split; [by apply Hworld|].
    by apply (lee_suto_native_gradient v_h r_h a b c Hr).
  - intros Hinit.
    destruct (model_init_ok v_h r_h a b c phi theta psi Ha Hr)
      as (calls & F' & _ & _ & HM).
    rewrite HM in Hinit. injection Hinit as <-.
    cbn [CPotential.c_instance _LeeSutoNFWPotential.attributes
         _LeeSutoNFWPotential.R].
    exact (lee_suto_gradient v_h r_h a b c Hr F' x y z).
Qed.

Lemma norm3_unit_x : norm3 1 0 0 = 1.
Proof. apply sqrt_unit_x. Qed.

Lemma gradients_are_exact_derivatives_witness :
  let hq := _HernquistPotential.__init__ 1 1 1 in
  let mn := _MiyamotoNagaiPotential.__init__ 1 1 1 1 in
  let ls := _LeeSutoNFWPotential.attributes 1 1 1 1 1 eye3 eye3 in
  is_gradient (_HernquistPotential.value_at hq) 1 0 0
    (_HernquistPotential.gradient_at hq 1 0 0)
  /\ is_gradient (_MiyamotoNagaiPotential.value_at mn) 1 0 0
       (_MiyamotoNagaiPotential.gradient_at mn 1 0 0)
  /\ is_gradient (_LeeSutoNFWPotential.value_at ls) 1 0 0
       (_LeeSutoNFWPotential.gradient_at ls 1 0 0).
Proof.
  intros hq mn ls.
  destruct (gradients_are_exact_derivatives hq mn 1 1 1 1 1 eye3 ls 0 0 0
              {| CPotential.parameters := (1, 1, 1, 1, 1, eye3);
                 CPotential.c_instance := ls |} 1 0 0)
    as (Hhq & Hmn & Hls & _).
  split; [|split].
  - apply Hhq; rewrite norm3_unit_x; cbn; lra.
  - apply Hmn.
    + apply Rgt_not_eq, sqrtz_pos. lra.
    + unfold _MiyamotoNagaiPotential.value_den. cbn.
      apply sqrt_pos_nonzero.
      pose proof (sqrt_pos (0 * 0 + 1 * 1)). nra.
  - assert (Hone : norm3 (1 * 1 + 0 * 0 + 0 * 0) (0 * 1 + 1 * 0 + 0 * 0)
                     (0 * 1 + 0 * 0 + 1 * 0) = 1).
    { unfold norm3.
      replace ((1 * 1 + 0 * 0 + 0 * 0) * (1 * 1 + 0 * 0 + 0 * 0)
               + (0 * 1 + 1 * 0 + 0 * 0) * (0 * 1 + 1 * 0 + 0 * 0)
               + (0 * 1 + 0 * 0 + 1 * 0) * (0 * 1 + 0 * 0 + 1 * 0))
        with 1 by ring.
      apply sqrt_1. }
    cbv [mat_vec eye3 m00 m01 m02 m10 m11 m12 m20 m21 m22] in Hls.
    apply Hls.
    + apply orthogonal_eye.
    + rewrite kernel_init_orthogonal; [reflexivity|lra|lra|apply orthogonal_eye].
    + rewrite Hone. lra.
    + rewrite Hone. lra.
Defined.

(** * Further properties of the kernels *)

(** ** Shape of the Hernquist potential *)

Lemma norm3_nonneg x y z : 0 <= norm3 x y z.
Proof. apply sqrt_pos. Qed.

Lemma norm3_origin : norm3 0 0 0 = 0.
Proof. unfold norm3. replace (0*0 + 0*0 + 0*0) with 0 by ring. apply sqrt_0. Qed.

Lemma sum_squares_nonneg x y z : 0 <= x*x + y*y + z*z.
Proof. nra. Qed.

Lemma norm3_sqr x y z : norm3 x y z * norm3 x y z = x*x + y*y + z*z.
Proof. apply sqrt_sqrt, sum_squares_nonneg. Qed.

(** Scaling a position by [k >= 0] scales its distance to the origin. *)
Lemma norm3_scale k x y z : 0 <= k -> norm3 (k*x) (k*y) (k*z) = k * norm3 x y z.
Proof.
  intros Hk. unfold norm3.
  replace (k*x*(k*x) + k*y*(k*y) + k*z*(k*z)) with (k*k * (x*x + y*y + z*z))
    by ring.
  rewrite sqrt_mult by (try apply sum_squares_nonneg; nra).
  by rewrite sqrt_square.
Qed.

Lemma well_monotone GM c R1 R2 :
  0 <= GM -> 0 < c -> 0 <= R1 -> R1 <= R2 ->
  - GM / (R1 + c) <= - GM / (R2 + c).
Proof.
  intros HGM Hc H1 H12.
  assert (Hinv : / (R2 + c) <= / (R1 + c)) by (apply Rinv_le_contravar; lra).
  unfold Rdiv. nra.
Qed.

(** X1.  For [G*m >= 0] and [c > 0] the Hernquist value is a well: at the
    origin it is [-GM/c], everywhere it lies between that and [0], and it
    does not decrease with the distance to the origin. *)
Theorem hernquist_potential_well (G m c x y z qx qy qz : real) :
  0 <= G * m -> 0 < c ->
  let hq := _HernquistPotential.__init__ G m c in
  _HernquistPotential.value_at hq 0 0 0 = - (G * m) / c
  /\ _HernquistPotential.value_at hq 0 0 0
     <= _HernquistPotential.value_at hq x y z <= 0
  /\ (norm3 x y z <= norm3 qx qy qz ->
      _HernquistPotential.value_at hq x y z
      <= _HernquistPotential.value_at hq qx qy qz).
Proof.
  intros HGM Hc hq. unfold _HernquistPotential.value_at. cbn.
  fold (norm3 0 0 0) (norm3 x y z) (norm3 qx qy qz). rewrite norm3_origin.
  pose proof (norm3_nonneg x y z) as Hp.
  split; [f_equal; lra|]. split; [split|].
  - apply well_monotone; lra.
  - assert (0 < / (norm3 x y z + c)) by (apply Rinv_0_lt_compat; lra).
    unfold Rdiv. nra.
  - intros Hle. apply well_monotone; lra.
Qed.

Lemma hernquist_potential_well_witness :
  _HernquistPotential.value_at (_HernquistPotential.__init__ 1 1 1) 0 0 0
  <= _HernquistPotential.value_at (_HernquistPotential.__init__ 1 1 1) 3 4 0
  <= 0.
Proof.
  destruct (hernquist_potential_well 1 1 1 3 4 0 0 0 0) as (_ & H & _).
  - lra.
  - lra.
  - exact H.
Defined.

(** X2.  For [G*m >= 0], [c > 0] and a position off the origin, the
    Hernquist gradient has length [GM/(R+c)^2] and points away from the
    origin (its scalar product with the position is not negative). *)
Theorem hernquist_gradient_radial (G m c x y z : real) :
  0 <= G * m -> 0 < c -> 0 < norm3 x y z ->
  let '(gx, gy, gz) :=
    _HernquistPotential.gradient_at (_HernquistPotential.__init__ G m c) x y z
  in
  norm3 gx gy gz = G * m / (norm3 x y z + c) ^ 2
  /\ 0 <= gx * x + gy * y + gz * z.
Proof.
  intros HGM Hc HR. unfold _HernquistPotential.gradient_at. cbn.
  fold (norm3 x y z). set (R := norm3 x y z) in *.
  set (fac := G * m / ((R + c) * ((R + c) * 1) * R)).
  assert (Hfac : 0 <= fac).
  { unfold fac, Rdiv. apply Rmult_le_pos; [done|].
    apply Rlt_le, Rinv_0_lt_compat.
    repeat apply Rmult_lt_0_compat; lra. }
  split.
  - rewrite (norm3_scale fac x y z Hfac). fold R. unfold fac. field. lra.
  - pose proof (sum_squares_nonneg x y z).
    replace (fac * x * x + fac * y * y + fac * z * z)
      with (fac * (x*x + y*y + z*z)) by ring.
    by apply Rmult_le_pos.
Qed.

Lemma hernquist_gradient_radial_witness :
  let '(gx, gy, gz) :=
    _HernquistPotential.gradient_at (_HernquistPotential.__init__ 1 1 1) 1 0 0
  in norm3 gx gy gz = 1 * 1 / (norm3 1 0 0 + 1) ^ 2.
Proof.
  pose proof (hernquist_gradient_radial 1 1 1 1 0 0) as H.
  destruct (_HernquistPotential.gradient_at _ 1 0 0) as [[gx gy] gz].
  apply H.
  - lra.
  - lra.
  - rewrite norm3_unit_x. lra.
Defined.

(** X3.  Superposition in the mass: for the Hernquist and the
    Miyamoto-Nagai kernel, the value and each gradient component for the mass
    [m1 + m2] are the sums of those for [m1] and for [m2], the other
    parameters being the same. *)
Theorem mass_superposition (G m1 m2 c a b x y z : real) :
  let hq m := _HernquistPotential.__init__ G m c in
  let mn m := _MiyamotoNagaiPotential.__init__ G m a b in
  let add (u v : real * real * real) :=
    (u.1.1 + v.1.1, u.1.2 + v.1.2, u.2 + v.2) in
  _HernquistPotential.value_at (hq (m1 + m2)) x y z
  = _HernquistPotential.value_at (hq m1) x y z
    + _HernquistPotential.value_at (hq m2) x y z
  /\ _HernquistPotential.gradient_at (hq (m1 + m2)) x y z
     = add (_HernquistPotential.gradient_at (hq m1) x y z)
           (_HernquistPotential.gradient_at (hq m2) x y z)
  /\ _MiyamotoNagaiPotential.value_at (mn (m1 + m2)) x y z
     = _MiyamotoNagaiPotential.value_at (mn m1) x y z
       + _MiyamotoNagaiPotential.value_at (mn m2) x y z
  /\ _MiyamotoNagaiPotential.gradient_at (mn (m1 + m2)) x y z
     = add (_MiyamotoNagaiPotential.gradient_at (mn m1) x y z)
           (_MiyamotoNagaiPotential.gradient_at (mn m2) x y z).
Proof.
  intros hq mn add.
  unfold _HernquistPotential.value_at, _HernquistPotential.gradient_at,
    _MiyamotoNagaiPotential.value_at, _MiyamotoNagaiPotential.gradient_at,
    _MiyamotoNagaiPotential.fac, _MiyamotoNagaiPotential.value_den,
    _MiyamotoNagaiPotential.zd, _MiyamotoNagaiPotential.sqrtz, add.
  cbn [hq mn _HernquistPotential.__init__ _HernquistPotential.GM
       _HernquistPotential.c _MiyamotoNagaiPotential.__init__
       _MiyamotoNagaiPotential.GM _MiyamotoNagaiPotential.a
       _MiyamotoNagaiPotential.b2 fst snd].
  unfold Rdiv.
  split; [ring|]. split; [f_equal; [f_equal|]; ring|].
  split; [ring|]. f_equal; [f_equal|]; ring.
Qed.

(** ** Change of the unit of length *)

Lemma sqrt_scale2 k u v : 0 <= k -> sqrt (k*u*(k*u) + k*v*(k*v)) = k * sqrt (u*u + v*v).
Proof.
  intros Hk. replace (k*u*(k*u) + k*v*(k*v)) with (k*k * (u*u + v*v)) by ring.
  rewrite sqrt_mult by nra. by rewrite sqrt_square.
Qed.

(** X4.  Change of the unit of length for the Hernquist kernel: with the
    scale length and the position both multiplied by [k > 0], the value is
    divided by [k] and the gradient by [k^2] (at a position off the origin
    with [R + c <> 0]). *)
Theorem hernquist_length_rescaling (G m c k x y z : real) :
  0 < k -> 0 < norm3 x y z -> norm3 x y z + c <> 0 ->
  let hq := _HernquistPotential.__init__ G m c in
  let hq' := _HernquistPotential.__init__ G m (k * c) in
  let g := _HernquistPotential.gradient_at hq x y z in
  _HernquistPotential.value_at hq' (k*x) (k*y) (k*z)
  = _HernquistPotential.value_at hq x y z / k
  /\ _HernquistPotential.gradient_at hq' (k*x) (k*y) (k*z)
     = (g.1.1 / k ^ 2, g.1.2 / k ^ 2, g.2 / k ^ 2).
Proof.
  intros Hk HR Hc hq hq' g. subst g.
  unfold _HernquistPotential.value_at, _HernquistPotential.gradient_at.
  cbn [hq hq' _HernquistPotential.__init__ _HernquistPotential.GM
       _HernquistPotential.c fst snd].
  fold (norm3 (k*x) (k*y) (k*z)) (norm3 x y z).
  rewrite norm3_scale by lra. set (R := norm3 x y z) in *.
  replace (k * R + k * c) with (k * (R + c)) by ring.
  split; [field; repeat split; lra|].
  f_equal; [f_equal|]; field; repeat split; lra.
Qed.

Lemma hernquist_length_rescaling_witness :
  _HernquistPotential.value_at (_HernquistPotential.__init__ 1 1 (2 * 1))
    (2 * 1) (2 * 0) (2 * 0)
  = _HernquistPotential.value_at (_HernquistPotential.__init__ 1 1 1) 1 0 0 / 2.
Proof.
  apply (hernquist_length_rescaling 1 1 1 2 1 0 0);
    rewrite ?norm3_unit_x; lra.
Defined.

(** X5.  Change of the unit of length for the Miyamoto-Nagai kernel: with
    [a], [b] and the position all multiplied by [k > 0], the value is divided
    by [k] and the gradient by [k^2], where the two divisors of the kernel
    are not zero. *)
Theorem miyamoto_nagai_length_rescaling (G m a b k x y z : real) :
  0 < k ->
  let mn := _MiyamotoNagaiPotential.__init__ G m a b in
  let mn' := _MiyamotoNagaiPotential.__init__ G m (k * a) (k * b) in
  _MiyamotoNagaiPotential.sqrtz mn z <> 0 ->
  _MiyamotoNagaiPotential.value_den mn x y z <> 0 ->
  let g := _MiyamotoNagaiPotential.gradient_at mn x y z in
  _MiyamotoNagaiPotential.value_at mn' (k*x) (k*y) (k*z)
  = _MiyamotoNagaiPotential.value_at mn x y z / k
  /\ _MiyamotoNagaiPotential.gradient_at mn' (k*x) (k*y) (k*z)
     = (g.1.1 / k ^ 2, g.1.2 / k ^ 2, g.2 / k ^ 2).
Proof.
  intros Hk mn mn'.
  unfold _MiyamotoNagaiPotential.sqrtz, _MiyamotoNagaiPotential.value_den.
  cbv zeta. cbn [mn _MiyamotoNagaiPotential.__init__
                 _MiyamotoNagaiPotential.a _MiyamotoNagaiPotential.b2].
  intros Hq Hs.
  pose proof (sqrt_nonzero_pos _ Hs) as Hs2.
  unfold _MiyamotoNagaiPotential.value_at, _MiyamotoNagaiPotential.value_den,
    _MiyamotoNagaiPotential.gradient_at, _MiyamotoNagaiPotential.fac,
    _MiyamotoNagaiPotential.zd, _MiyamotoNagaiPotential.sqrtz.
  cbv zeta.
  cbn [mn mn' _MiyamotoNagaiPotential.__init__ _MiyamotoNagaiPotential.GM
       _MiyamotoNagaiPotential.a _MiyamotoNagaiPotential.b2 fst snd].
  rewrite (sqrt_scale2 k z b) by lra.
  set (q := sqrt (z*z + b*b)) in *.
  replace (k*x*(k*x) + k*y*(k*y) + (k*a + k*q) * (k*a + k*q))
    with (k*k * (x*x + y*y + (a + q) * (a + q))) by ring.
  set (D := x*x + y*y + (a + q) * (a + q)) in *.
  assert (HkD : 0 < k*k*D) by (apply Rmult_lt_0_compat; nra).
  rewrite (powf_minus_three_halves _ HkD), (powf_minus_three_halves _ Hs2).
  rewrite (sqrt_mult (k*k) D) by nra. rewrite sqrt_square by lra.
  set (s := sqrt D) in *.
  assert (HD : D = s * s) by (unfold s; rewrite sqrt_sqrt; lra).
  rewrite HD. clearbody s q. clear HD HkD Hs2 D.
  split; [field; repeat split; lra|].
  f_equal; [f_equal|]; field; repeat split; lra.
Qed.

Lemma miyamoto_nagai_length_rescaling_witness :
  _MiyamotoNagaiPotential.value_at
    (_MiyamotoNagaiPotential.__init__ 1 1 (2 * 1) (2 * 1)) (2 * 0) (2 * 0) (2 * 0)
  = _MiyamotoNagaiPotential.value_at
      (_MiyamotoNagaiPotential.__init__ 1 1 1 1) 0 0 0 / 2.
Proof.
  apply (miyamoto_nagai_length_rescaling 1 1 1 1 2 0 0 0).
  - lra.
  - apply Rgt_not_eq, sqrtz_pos. lra.
  - unfold _MiyamotoNagaiPotential.value_den. cbn.
    apply sqrt_pos_nonzero. pose proof (sqrt_pos (0 * 0 + 1 * 1)). nra.
Defined.

(** ** Shape of the Miyamoto-Nagai potential *)

Section MiyamotoNagaiShape.

Import _MiyamotoNagaiPotential.

Lemma sqrtz_abs G m a b : sqrtz (__init__ G m a b) 0 = Rabs b.
Proof.
  unfold sqrtz. cbn. replace (0*0 + b*b) with (Rsqr b) by (unfold Rsqr; ring).
  apply sqrt_Rsqr_abs.
Qed.

Lemma sqrtz_lower G m a b z : Rabs b <= sqrtz (__init__ G m a b) z.
Proof.
  rewrite <- (sqrtz_abs G m a b). unfold sqrtz. cbn.
  apply sqrt_le_1_alt. nra.
Qed.

Lemma value_den_lower G m a b x y z :
  0 <= a -> a + Rabs b <= value_den (__init__ G m a b) x y z.
Proof.
  intros Ha. pose proof (sqrtz_lower G m a b z) as Hq.
  pose proof (Rabs_pos b) as Hb.
  unfold value_den, sqrtz in *. cbn in *.
  set (q := sqrt (z*z + b*b)) in *.
  rewrite <- (sqrt_square (a + Rabs b)) by lra.
  apply sqrt_le_1_alt. nra.
Qed.

Lemma value_den_origin G m a b :
  0 <= a -> value_den (__init__ G m a b) 0 0 0 = a + Rabs b.
Proof.
  intros Ha. pose proof (sqrtz_abs G m a b) as Hq. pose proof (Rabs_pos b).
  unfold value_den, sqrtz in *. cbn in *. rewrite Hq.
  replace (0*0 + 0*0 + (a + Rabs b) * (a + Rabs b))
    with ((a + Rabs b) * (a + Rabs b)) by ring.
  apply sqrt_square. lra.
Qed.

End MiyamotoNagaiShape.

(** X6.  For [G*m >= 0], [a >= 0] and [b <> 0] the Miyamoto-Nagai value is
    a well: at the origin it is [-GM/(a+|b|)], and everywhere it lies between
    that and [0]. *)
Theorem miyamoto_nagai_potential_well (G m a b x y z : real) :
  0 <= G * m -> 0 <= a -> b <> 0 ->
  let mn := _MiyamotoNagaiPotential.__init__ G m a b in
  _MiyamotoNagaiPotential.value_at mn 0 0 0 = - (G * m) / (a + Rabs b)
  /\ _MiyamotoNagaiPotential.value_at mn 0 0 0
     <= _MiyamotoNagaiPotential.value_at mn x y z <= 0.
Proof.
  intros HGM Ha Hb mn. subst mn. unfold _MiyamotoNagaiPotential.value_at.
  pose proof (value_den_lower G m a b x y z Ha) as Hlow.
  rewrite (value_den_origin G m a b Ha).
  cbn [_MiyamotoNagaiPotential.__init__ _MiyamotoNagaiPotential.GM].
  set (d := _MiyamotoNagaiPotential.value_den _ x y z) in *.
  assert (Hab : 0 < a + Rabs b) by (pose proof (Rabs_pos_lt b Hb); lra).
  split; [reflexivity|].
  assert (Hinv : / d <= / (a + Rabs b)) by (apply Rinv_le_contravar; lra).
  assert (Hd : 0 < / d) by (apply Rinv_0_lt_compat; lra).
  unfold Rdiv. split; nra.
Qed.

Lemma miyamoto_nagai_potential_well_witness :
  _MiyamotoNagaiPotential.value_at
    (_MiyamotoNagaiPotential.__init__ 1 1 1 (-2)) 0 0 0
  = - (1 * 1) / (1 + Rabs (-2)).
Proof.
  apply (miyamoto_nagai_potential_well 1 1 1 (-2) 0 0 0); lra.
Defined.

(** X7.  With [a = 0] and [b <> 0] the Miyamoto-Nagai kernel is the Plummer
    sphere: the value is [-GM/sqrt(r^2+b^2)] and the gradient is
    [GM*(r^2+b^2)^(-3/2) * (x,y,z)], with [r^2 = x^2+y^2+z^2]. *)
Theorem miyamoto_nagai_plummer_limit (G m b x y z : real) :
  b <> 0 ->
  let mn := _MiyamotoNagaiPotential.__init__ G m 0 b in
  let r2 := x*x + y*y + z*z in
  _MiyamotoNagaiPotential.value_at mn x y z = - (G * m) / sqrt (r2 + b*b)
  /\ _MiyamotoNagaiPotential.gradient_at mn x y z
     = (G * m * powf (r2 + b*b) (-1.5) * x,
        G * m * powf (r2 + b*b) (-1.5) * y,
        G * m * powf (r2 + b*b) (-1.5) * z).
Proof.
  intros Hb mn r2. subst r2.
  unfold _MiyamotoNagaiPotential.value_at, _MiyamotoNagaiPotential.value_den,
    _MiyamotoNagaiPotential.gradient_at, _MiyamotoNagaiPotential.fac,
    _MiyamotoNagaiPotential.zd, _MiyamotoNagaiPotential.sqrtz.
  cbv zeta.
  cbn [mn _MiyamotoNagaiPotential.__init__ _MiyamotoNagaiPotential.GM
       _MiyamotoNagaiPotential.a _MiyamotoNagaiPotential.b2].
  assert (Hq : (0 + sqrt (z*z + b*b)) * (0 + sqrt (z*z + b*b)) = z*z + b*b).
  { rewrite Rplus_0_l. apply sqrt_sqrt. nra. }
  rewrite Hq.
  replace (x*x + y*y + (z*z + b*b)) with (x*x + y*y + z*z + b*b) by ring.
  split; [reflexivity|]. f_equal. unfold Rdiv. ring.
Qed.

Lemma miyamoto_nagai_plummer_limit_witness :
  _MiyamotoNagaiPotential.value_at
    (_MiyamotoNagaiPotential.__init__ 1 1 0 1) 1 2 3
  = - (1 * 1) / sqrt (1*1 + 2*2 + 3*3 + 1*1).
Proof.
  apply (miyamoto_nagai_plummer_limit 1 1 1 1 2 3). lra.
Defined.

(** X8.  Mirror symmetry of the Miyamoto-Nagai kernel, for every kernel
    instance and position: changing the sign of one coordinate leaves the
    value as it is and changes the sign of that component of the gradient
    only. *)
Theorem miyamoto_nagai_mirror_symmetry
    (mn : _MiyamotoNagaiPotential.t) (x y z : real) :
  let g := _MiyamotoNagaiPotential.gradient_at mn x y z in
  _MiyamotoNagaiPotential.value_at mn (- x) y z
  = _MiyamotoNagaiPotential.value_at mn x y z
  /\ _MiyamotoNagaiPotential.value_at mn x (- y) z
     = _MiyamotoNagaiPotential.value_at mn x y z
  /\ _MiyamotoNagaiPotential.value_at mn x y (- z)
     = _MiyamotoNagaiPotential.value_at mn x y z
  /\ _MiyamotoNagaiPotential.gradient_at mn (- x) y z = (- g.1.1, g.1.2, g.2)
  /\ _MiyamotoNagaiPotential.gradient_at mn x (- y) z = (g.1.1, - g.1.2, g.2)
  /\ _MiyamotoNagaiPotential.gradient_at mn x y (- z) = (g.1.1, g.1.2, - g.2).
Proof.
  unfold _MiyamotoNagaiPotential.value_at, _MiyamotoNagaiPotential.value_den,
    _MiyamotoNagaiPotential.gradient_at, _MiyamotoNagaiPotential.fac,
    _MiyamotoNagaiPotential.zd, _MiyamotoNagaiPotential.sqrtz.
  cbv zeta. cbn [fst snd].
  replace (- x * - x) with (x * x) by ring.
  replace (- y * - y) with (y * y) by ring.
  replace (- z * - z) with (z * z) by ring.
  repeat split; try reflexivity;
    (apply pair_equal_spec; split; [apply pair_equal_spec; split|]);
    unfold Rdiv; ring.
Qed.

(** ** More on frames *)

Section Frames.

Implicit Types A B F : mat3.

Local Ltac entries :=
  cbv [dot transpose eye3 scale3 adj3 det3 mat_vec rotation_matrix
       m00 m01 m02 m10 m11 m12 m20 m21 m22].

Lemma det3_rotation_matrix angle ax : det3 (rotation_matrix angle ax) = 1.
Proof.
  pose proof (cos_sin_unit angle) as H. destruct ax; entries; nra.
Qed.

(** A change of frame by an orthogonal matrix keeps the distance to the
    origin. *)
Lemma orthogonal_norm3 F x y z :
  orthogonal F ->
  let '(X, Y, Z) := mat_vec F (x, y, z) in norm3 X Y Z = norm3 x y z.
Proof.
  intros HF. apply orthogonal_transpose in HF.
  destruct F as [f00 f01 f02 f10 f11 f12 f20 f21 f22].
  revert HF. entries. intros [= H00 H01 H02 H10 H11 H12 H20 H21 H22].
  unfold norm3. f_equal.
  transitivity ((f00 * f00 + f10 * f10 + f20 * f20) * (x * x)
                + (f01 * f01 + f11 * f11 + f21 * f21) * (y * y)
                + (f02 * f02 + f12 * f12 + f22 * f22) * (z * z)
                + 2 * (f00 * f01 + f10 * f11 + f20 * f21) * (x * y)
                + 2 * (f00 * f02 + f10 * f12 + f20 * f22) * (x * z)
                + 2 * (f01 * f02 + f11 * f12 + f21 * f22) * (y * z));
    [ring|].
  rewrite H00, H01, H02, H11, H12, H22. ring.
Qed.

End Frames.

(** What a successful [_LeeSutoNFWPotential.__init__] has established. *)
Lemma kernel_init_inv v_h r_h a b c F k :
  (_LeeSutoNFWPotential.__init__ v_h r_h a b c F).2 = ok k ->
  a <> 0 /\ r_h <> 0 /\
  exists Fi, linalg_inv F = Some Fi
             /\ k = _LeeSutoNFWPotential.attributes v_h r_h a b c F Fi.
Proof.
  unfold _LeeSutoNFWPotential.__init__.
  case_decide as Ha; [discriminate|]. case_decide as Hr; [discriminate|].
  unfold tbind, tcall. destruct (linalg_inv F) as [Fi|]; [|discriminate].
  intros [= <-]. split; [done|]. split; [done|]. by exists Fi.
Qed.

(** The matrix a call of [frame] returns: the product of the three
    rotations, also when all angles are zero. *)
Lemma frame_matrix phi theta psi :
  exists calls,
    LeeSutoNFWPotential.frame phi theta psi
    = (calls, ok (dot (dot (rotation_matrix psi AxisZ)
                           (rotation_matrix theta AxisX))
                      (rotation_matrix phi AxisZ))).
Proof.
  unfold LeeSutoNFWPotential.frame. case_decide as H.
  - eexists. reflexivity.
  - assert (theta = 0 /\ phi = 0 /\ psi = 0) as (-> & -> & ->).
    { repeat split;
        match goal with
        | |- ?t = 0 => destruct (decide (t = 0)) as [|Hne];
                       [done|exfalso; apply H; auto]
        end. }
    eexists. unfold tcall. do 2 f_equal.
    cbv [dot rotation_matrix eye3 m00 m01 m02 m10 m11 m12 m20 m21 m22].
    rewrite cos_0, sin_0. f_equal; ring.
Qed.

(** X10.  For all angles, with [a <> 0] and [r_h <> 0], the model built by
    [LeeSutoNFWPotential.__init__] stores a proper rotation: [det R = 1],
    [R . transpose R = identity], [Rinv = transpose R]; and the rotated
    position is as far from the origin as the position itself, so the kernel
    is singular at the origin of the caller's frame only. *)
Theorem model_frame_is_a_rotation (v_h r_h a b c phi theta psi : real) :
  a <> 0 -> r_h <> 0 ->
  exists M,
    (LeeSutoNFWPotential.__init__ v_h r_h a b c phi theta psi).2 = ok M
    /\ let k := CPotential.c_instance M in
       let F := _LeeSutoNFWPotential.R k in
       det3 F = 1
       /\ dot F (transpose F) = eye3
       /\ _LeeSutoNFWPotential.Rinv k = transpose F
       /\ forall x y z,
            let '(X, Y, Z) := mat_vec F (x, y, z) in
            norm3 X Y Z = norm3 x y z.
Proof.
  intros Ha Hr.
  destruct (model_init_ok v_h r_h a b c phi theta psi Ha Hr)
    as (calls & F & HF & Ho & HM).
  eexists. rewrite HM. split; [reflexivity|].
  cbn [CPotential.c_instance _LeeSutoNFWPotential.attributes
       _LeeSutoNFWPotential.R _LeeSutoNFWPotential.Rinv].
  split; [|split; [exact Ho|split; [reflexivity|]]].
  - destruct (frame_matrix phi theta psi) as (calls' & HF').
    rewrite HF' in HF. injection HF as _ <-.
    change (det3 (dot (dot (rotation_matrix psi AxisZ)
                           (rotation_matrix theta AxisX))
                      (rotation_matrix phi AxisZ)) = 1).
    by rewrite !det3_dot, !det3_rotation_matrix, !Rmult_1_l.
  - intros x y z. by apply orthogonal_norm3.
Qed.

Lemma model_frame_is_a_rotation_witness :
  exists M, (LeeSutoNFWPotential.__init__ 1 1 1 1 1 1 2 3).2 = ok M
    /\ det3 (_LeeSutoNFWPotential.R (CPotential.c_instance M)) = 1.
Proof.
  destruct (model_frame_is_a_rotation 1 1 1 1 1 1 2 3) as (M & HM & Hd & _).
  - lra.
  - lra.
  - exists M. split; [exact HM|exact Hd].
Defined.

(** With [theta = 0] the two rotations about z add up. *)
Lemma frame_about_z phi psi :
  exists calls,
    LeeSutoNFWPotential.frame phi 0 psi
    = (calls, ok (rotation_matrix (phi + psi) AxisZ)).
Proof.
  destruct (frame_matrix phi 0 psi) as (calls & ->). exists calls.
  do 2 f_equal.
  cbv [dot rotation_matrix m00 m01 m02 m10 m11 m12 m20 m21 m22].
  rewrite cos_0, sin_0, cos_plus, sin_plus. f_equal; ring.
Qed.

(** The angles negated and taken in the reverse order give the transposed
    frame. *)
Lemma frame_inverse_angles phi theta psi :
  exists calls calls' F,
    LeeSutoNFWPotential.frame phi theta psi = (calls, ok F)
    /\ LeeSutoNFWPotential.frame (- psi) (- theta) (- phi)
       = (calls', ok (transpose F)).
Proof.
  destruct (frame_matrix phi theta psi) as (calls & ->).
  destruct (frame_matrix (- psi) (- theta) (- phi)) as (calls' & ->).
  exists calls, calls'. eexists. split; [reflexivity|]. do 2 f_equal.
  cbv [dot transpose rotation_matrix m00 m01 m02 m10 m11 m12 m20 m21 m22].
  rewrite !cos_neg, !sin_neg. f_equal; ring.
Qed.

(** X11.  With [theta = 0] the two rotations about z add up: the model
    built with the angles [(phi, 0, psi)] stores as [R] the rotation matrix
    of the angle [phi + psi] about z. *)
Theorem rotations_about_z_add (v_h r_h a b c phi psi : real) :
  a <> 0 -> r_h <> 0 ->
  exists M,
    (LeeSutoNFWPotential.__init__ v_h r_h a b c phi 0 psi).2 = ok M
    /\ _LeeSutoNFWPotential.R (CPotential.c_instance M)
       = rotation_matrix (phi + psi) AxisZ.
Proof.
  intros Ha Hr.
  destruct (model_init_ok v_h r_h a b c phi 0 psi Ha Hr)
    as (calls & F & HF & _ & HM).
  destruct (frame_about_z phi psi) as (calls' & HF').
  rewrite HF' in HF. injection HF as _ HFeq.
  eexists. rewrite HM. split; [reflexivity|]. by cbn.
Qed.

Lemma rotations_about_z_add_witness :
  exists M,
    (LeeSutoNFWPotential.__init__ 1 1 1 1 1 1 0 2).2 = ok M
    /\ _LeeSutoNFWPotential.R (CPotential.c_instance M)
       = rotation_matrix (1 + 2) AxisZ.
Proof. apply (rotations_about_z_add 1 1 1 1 1 1 2); lra. Defined.

(** X12.  The model built with the angles [(-psi, -theta, -phi)] stores
    as [R] the [Rinv] of the model built with [(phi, theta, psi)], and as
    [Rinv] its [R]. *)
Theorem inverse_angles_swap_frame_and_inverse
    (v_h r_h a b c phi theta psi : real) :
  a <> 0 -> r_h <> 0 ->
  exists M M',
    (LeeSutoNFWPotential.__init__ v_h r_h a b c phi theta psi).2 = ok M
    /\ (LeeSutoNFWPotential.__init__ v_h r_h a b c
          (- psi) (- theta) (- phi)).2 = ok M'
    /\ _LeeSutoNFWPotential.R (CPotential.c_instance M')
       = _LeeSutoNFWPotential.Rinv (CPotential.c_instance M)
    /\ _LeeSutoNFWPotential.Rinv (CPotential.c_instance M')
       = _LeeSutoNFWPotential.R (CPotential.c_instance M).
Proof.
  intros Ha Hr.
  destruct (model_init_ok v_h r_h a b c phi theta psi Ha Hr)
    as (calls & F & HF & _ & HM).
  destruct (model_init_ok v_h r_h a b c (- psi) (- theta) (- phi) Ha Hr)
    as (calls' & F' & HF' & _ & HM').
  destruct (frame_inverse_angles phi theta psi)
    as (c1 & c2 & F0 & H1 & H2).
  rewrite H1 in HF. rewrite H2 in HF'.
  injection HF as _ <-. injection HF' as _ <-.
  eexists _, _. rewrite HM, HM'.
  split; [reflexivity|]. split; [reflexivity|]. cbn.
  split; [reflexivity|]. apply transpose_transpose.
Qed.

Lemma inverse_angles_swap_frame_and_inverse_witness :
  exists M M',
    (LeeSutoNFWPotential.__init__ 1 1 1 1 1 1 2 3).2 = ok M
    /\ (LeeSutoNFWPotential.__init__ 1 1 1 1 1 (- 3) (- 2) (- 1)).2 = ok M'
    /\ _LeeSutoNFWPotential.R (CPotential.c_instance M')
       = _LeeSutoNFWPotential.Rinv (CPotential.c_instance M).
Proof.
  destruct (inverse_angles_swap_frame_and_inverse 1 1 1 1 1 1 2 3)
    as (M & M' & HM & HM' & HR & _).
  - lra.
  - lra.
  - exists M, M'. split; [exact HM|]. split; [exact HM'|exact HR].
Defined.

Section LeeSutoShape.

Import _LeeSutoNFWPotential.

Local Ltac tuple_eq :=
  apply pair_equal_spec; split; [apply pair_equal_spec; split|].

(** The closed forms read the kernel through four numbers only. *)
Lemma native_forms_depend_on k k' x y z :
  v_h2 k = v_h2 k' -> _LeeSutoNFWPotential.r_h k = _LeeSutoNFWPotential.r_h k' ->
  r_h2 k = r_h2 k' -> e_b2 k = e_b2 k' -> e_c2 k = e_c2 k' ->
  value_native k x y z = value_native k' x y z
  /\ gradient_native k x y z = gradient_native k' x y z.
Proof.
  unfold value_native, gradient_native. by intros -> -> -> -> ->.
Qed.

(** Mirror images in the three principal planes of the halo. *)
Lemma value_native_mirror k x y z :
  value_native k (- x) y z = value_native k x y z
  /\ value_native k x (- y) z = value_native k x y z
  /\ value_native k x y (- z) = value_native k x y z.
Proof.
  unfold value_native. cbv zeta.
  replace (- x * - x) with (x * x) by ring.
  replace (- y * - y) with (y * y) by ring.
  replace (- z * - z) with (z * z) by ring.
  replace ((- y) ^ 2) with (y ^ 2) by ring.
  replace (e_c2 k * - z * - z) with (e_c2 k * z * z) by ring.
  done.
Qed.

Lemma gradient_native_mirror k x y z :
  let g := gradient_native k x y z in
  gradient_native k (- x) y z = (- g.1.1, g.1.2, g.2)
  /\ gradient_native k x (- y) z = (g.1.1, - g.1.2, g.2)
  /\ gradient_native k x y (- z) = (g.1.1, g.1.2, - g.2).
Proof.
  unfold gradient_native. cbv zeta. cbn [fst snd].
  replace (- x * - x) with (x * x) by ring.
  replace (- y * - y) with (y * y) by ring.
  replace (- z * - z) with (z * z) by ring.
  replace (e_b2 k * - y * - y) with (e_b2 k * y * y) by ring.
  replace (e_c2 k * - z * - z) with (e_c2 k * z * z) by ring.
  repeat split; tuple_eq; unfold Rdiv; ring.
Qed.


(** A round halo ([b = a], [c = a]) in its own frame: the NFW potential and
    a radial gradient. *)
Lemma round_halo_native v_h r_h a F Fi x y z :
  a <> 0 -> r_h <> 0 -> 0 < norm3 x y z -> norm3 x y z + r_h <> 0 ->
  let k := attributes v_h r_h a a a F Fi in
  let r := norm3 x y z in
  let u := r / r_h in
  let f := v_h * v_h * (log (u + 1) / u - 1 / (u + 1)) / (r * r) in
  value_native k x y z = - (v_h * v_h) * log (u + 1) / u
  /\ gradient_native k x y z = (f * x, f * y, f * z).
Proof.
  intros Ha Hrh Hr Hx0 k r u f. subst k u f.
  unfold value_native, gradient_native, log. cbv zeta.
  cbn [attributes v_h2 _LeeSutoNFWPotential.r_h r_h2 e_b2 e_c2].
  fold (norm3 x y z). fold r. fold r in Hr, Hx0.
  replace (1 - (a / a) ^ 2) with 0 by (by field).
  replace ((r + r_h) / r_h) with (r / r_h + 1) by (by field).
  replace (x*x + y*y + z*z) with (r * r) by apply norm3_sqr.
  set (L := ln (r / r_h + 1)). clearbody L. clearbody r.
  split; [field; repeat split; lra|]. tuple_eq; field; repeat split; lra.
Qed.

(** Multiplying the scale radius and the position by [s > 0] leaves the
    value as it is and divides the gradient by [s]. *)
Lemma length_rescaling_native v_h r_h a b c F Fi s x y z :
  0 < s -> r_h <> 0 -> 0 < norm3 x y z -> norm3 x y z + r_h <> 0 ->
  let k := attributes v_h r_h a b c F Fi in
  let k' := attributes v_h (s * r_h) a b c F Fi in
  let g := gradient_native k x y z in
  value_native k' (s*x) (s*y) (s*z) = value_native k x y z
  /\ gradient_native k' (s*x) (s*y) (s*z) = (g.1.1 / s, g.1.2 / s, g.2 / s).
Proof.
  intros Hs Hrh Hr Hx0 k k' g. subst k k' g.
  unfold value_native, gradient_native, log. cbv zeta.
  cbn [attributes v_h2 _LeeSutoNFWPotential.r_h r_h2 e_b2 e_c2 fst snd].
  fold (norm3 x y z) (norm3 (s*x) (s*y) (s*z)).
  rewrite norm3_scale by lra.
  replace (s*x*(s*x) + s*y*(s*y) + s*z*(s*z)) with (s*s * (x*x + y*y + z*z))
    by ring.
  replace (x*x + y*y + z*z) with (norm3 x y z * norm3 x y z)
    by apply norm3_sqr.
  set (r := norm3 x y z) in *.
  replace (s * r / (s * r_h)) with (r / r_h) by (field; split; lra).
  replace ((s * r + s * r_h) / (s * r_h)) with ((r + r_h) / r_h)
    by (field; split; lra).
  replace (s * r + s * r_h) with (s * (r + r_h)) by ring.
  set (L := ln (r / r_h + 1)). set (L' := ln ((r + r_h) / r_h)).
  set (eb := 1 - (b / a) ^ 2). set (ec := 1 - (c / a) ^ 2).
  clearbody L L' eb ec r.
  split; [field; repeat split; lra|].
  tuple_eq; field; repeat split; lra.
Qed.

End LeeSutoShape.

Lemma mat_vec_scale A s x y z :
  mat_vec A (s * x, s * y, s * z)
  = let v := mat_vec A (x, y, z) in (s * v.1.1, s * v.1.2, s * v.2).
Proof.
  unfold mat_vec. cbn [fst snd].
  apply pair_equal_spec; split; [apply pair_equal_spec; split|]; ring.
Qed.

Lemma mat_vec_opp A x y z :
  mat_vec A (- x, - y, - z)
  = let v := mat_vec A (x, y, z) in (- v.1.1, - v.1.2, - v.2).
Proof.
  unfold mat_vec. cbn [fst snd].
  apply pair_equal_spec; split; [apply pair_equal_spec; split|]; ring.
Qed.

(** X13.  Symmetries of the Lee-Suto kernel, for every kernel instance and
    position.  In the frame of the halo, changing the sign of one coordinate
    leaves the closed form of the value as it is and changes the sign of that
    component of the closed form of the gradient only.  In the caller's
    frame, whatever [R] and [Rinv] are, the value at [-p] is the value at [p]
    and the gradient at [-p] is the opposite of the gradient at [p]. *)
Theorem lee_suto_reflection_symmetry
    (k : _LeeSutoNFWPotential.t) (x y z : real) :
  let v := _LeeSutoNFWPotential.value_native k in
  let g := _LeeSutoNFWPotential.gradient_native k x y z in
  let gw := _LeeSutoNFWPotential.gradient_at k x y z in
  (v (- x) y z = v x y z /\ v x (- y) z = v x y z /\ v x y (- z) = v x y z)
  /\ (_LeeSutoNFWPotential.gradient_native k (- x) y z = (- g.1.1, g.1.2, g.2)
      /\ _LeeSutoNFWPotential.gradient_native k x (- y) z
         = (g.1.1, - g.1.2, g.2)
      /\ _LeeSutoNFWPotential.gradient_native k x y (- z)
         = (g.1.1, g.1.2, - g.2))
  /\ _LeeSutoNFWPotential.value_at k (- x) (- y) (- z)
     = _LeeSutoNFWPotential.value_at k x y z
  /\ _LeeSutoNFWPotential.gradient_at k (- x) (- y) (- z)
     = (- gw.1.1, - gw.1.2, - gw.2).
Proof.
  intros v g gw. subst v g gw.
  split; [apply value_native_mirror|]. split; [apply gradient_native_mirror|].
  rewrite !value_at_native, !gradient_at_native, mat_vec_opp.
  destruct (mat_vec (_LeeSutoNFWPotential.R k) (x, y, z)) as [[X Y] Z].
  cbn [fst snd].
  destruct (value_native_mirror k X Y Z) as (Hx & _ & _).
  destruct (value_native_mirror k (- X) Y Z) as (_ & Hy & _).
  destruct (value_native_mirror k (- X) (- Y) Z) as (_ & _ & Hz).
  destruct (gradient_native_mirror k X Y Z) as (Gx & _ & _).
  destruct (gradient_native_mirror k (- X) Y Z) as (_ & Gy & _).
  destruct (gradient_native_mirror k (- X) (- Y) Z) as (_ & _ & Gz).
  cbv zeta in Gx, Gy, Gz.
  split; [by rewrite Hz, Hy, Hx|].
  rewrite Gz, Gy, Gx. cbn [fst snd].
  destruct (_LeeSutoNFWPotential.gradient_native k X Y Z) as [[ax ay] az].
  cbn [fst snd]. exact (mat_vec_opp _ ax ay az).
Qed.

(** X14.  A round halo ([b = a], [c = a], [a <> 0], [r_h <> 0]): for all
    angles, at a position [p] off the origin with [r + r_h <> 0], the value is
    the NFW potential [-v_h^2 * log(1+u)/u] with [u = r/r_h], [r = |p|], and
    the gradient is [v_h^2 * (log(1+u)/u - 1/(1+u)) / r^2 * p].  The angles
    have no effect. *)
Theorem round_halo_is_nfw (v_h r_h a phi theta psi x y z : real) :
  a <> 0 -> r_h <> 0 -> 0 < norm3 x y z -> norm3 x y z + r_h <> 0 ->
  exists M,
    (LeeSutoNFWPotential.__init__ v_h r_h a a a phi theta psi).2 = ok M
    /\ let k := CPotential.c_instance M in
       let r := norm3 x y z in
       let u := r / r_h in
       let f := v_h * v_h * (log (u + 1) / u - 1 / (u + 1)) / (r * r) in
       _LeeSutoNFWPotential.value_at k x y z
       = - (v_h * v_h) * log (u + 1) / u
       /\ _LeeSutoNFWPotential.gradient_at k x y z = (f * x, f * y, f * z).
Proof.
  intros Ha Hrh Hr Hx0.
  destruct (model_init_ok v_h r_h a a a phi theta psi Ha Hrh)
    as (calls & F & _ & HF & HM).
  eexists. rewrite HM. split; [reflexivity|].
  cbn [CPotential.c_instance]. cbv zeta.
  rewrite value_at_native, gradient_at_native.
  cbn [_LeeSutoNFWPotential.attributes _LeeSutoNFWPotential.R
       _LeeSutoNFWPotential.Rinv].
  pose proof (orthogonal_norm3 F x y z HF) as Hn.
  pose proof (mat_vec_dot (transpose F) F (x, y, z)) as Hback.
  rewrite (orthogonal_transpose F HF), mat_vec_eye in Hback.
  destruct (mat_vec F (x, y, z)) as [[X Y] Z].
  destruct (round_halo_native v_h r_h a F (transpose F) X Y Z)
    as [Hv Hg]; [done|done|by rewrite Hn|by rewrite Hn|].
  cbv zeta in Hv, Hg. rewrite Hn in Hv, Hg. split; [exact Hv|].
  rewrite Hg, mat_vec_scale, <- Hback. reflexivity.
Qed.

Lemma round_halo_is_nfw_witness :
  exists M,
    (LeeSutoNFWPotential.__init__ 1 1 1 1 1 1 2 3).2 = ok M
    /\ _LeeSutoNFWPotential.value_at (CPotential.c_instance M) 1 0 0
       = - (1 * 1) * log (norm3 1 0 0 / 1 + 1) / (norm3 1 0 0 / 1).
Proof.
  destruct (round_halo_is_nfw 1 1 1 1 2 3 1 0 0) as (M & HM & Hv & _).
  - lra.
  - lra.
  - rewrite norm3_unit_x. lra.
  - rewrite norm3_unit_x. lra.
  - exists M. split; [exact HM|exact Hv].
Defined.

(** X15.  The Lee-Suto kernel depends on the axes through their ratios and
    on [v_h] through its square: the kernels built (on the same frame) from
    [v_h, a, b, c] and from [-v_h, s*a, s*b, s*c] with [s <> 0] have the same
    value and gradient at every position. *)
Theorem only_axis_ratios_and_speed_squared_matter
    (v_h r_h a b c s : real) (F : mat3) (k k' : _LeeSutoNFWPotential.t)
    (x y z : real) :
  s <> 0 ->
  (_LeeSutoNFWPotential.__init__ v_h r_h a b c F).2 = ok k ->
  (_LeeSutoNFWPotential.__init__ (- v_h) r_h (s * a) (s * b) (s * c) F).2
  = ok k' ->
  _LeeSutoNFWPotential.value_at k' x y z
  = _LeeSutoNFWPotential.value_at k x y z
  /\ _LeeSutoNFWPotential.gradient_at k' x y z
     = _LeeSutoNFWPotential.gradient_at k x y z.
Proof.
  intros Hs Hk Hk'.
  apply kernel_init_inv in Hk as (Ha & Hr & Fi & Hi & ->).
  apply kernel_init_inv in Hk' as (_ & _ & Fi' & Hi' & ->).
  rewrite Hi in Hi'. injection Hi' as <-.
  rewrite !value_at_native, !gradient_at_native.
  cbn [_LeeSutoNFWPotential.attributes _LeeSutoNFWPotential.R
       _LeeSutoNFWPotential.Rinv].
  destruct (mat_vec F (x, y, z)) as [[X Y] Z].
  destruct (native_forms_depend_on
              (_LeeSutoNFWPotential.attributes (- v_h) r_h (s*a) (s*b) (s*c)
                 F Fi)
              (_LeeSutoNFWPotential.attributes v_h r_h a b c F Fi) X Y Z)
    as [Hv Hg]; cbn [_LeeSutoNFWPotential.attributes
                     _LeeSutoNFWPotential.v_h2 _LeeSutoNFWPotential.r_h
                     _LeeSutoNFWPotential.r_h2 _LeeSutoNFWPotential.e_b2
                     _LeeSutoNFWPotential.e_c2];
    [ring|reflexivity|reflexivity|by field|by field|].
  by rewrite Hv, Hg.
Qed.

Lemma only_axis_ratios_and_speed_squared_matter_witness :
  _LeeSutoNFWPotential.value_at
    (_LeeSutoNFWPotential.attributes (- 1) 1 (2 * 3) (2 * 2) (2 * 1)
       eye3 (transpose eye3)) 1 2 3
  = _LeeSutoNFWPotential.value_at
      (_LeeSutoNFWPotential.attributes 1 1 3 2 1 eye3 (transpose eye3)) 1 2 3.
Proof.
  apply (only_axis_ratios_and_speed_squared_matter 1 1 3 2 1 2 eye3).
  - lra.
  - rewrite kernel_init_orthogonal; [reflexivity|lra|lra|apply orthogonal_eye].
  - rewrite kernel_init_orthogonal; [reflexivity|lra|lra|apply orthogonal_eye].
Defined.

(** X16.  For axes ordered [0 < c <= b <= a], the ellipticities the kernel
    constructor stores satisfy [0 <= e_b2 <= e_c2 < 1]. *)
Theorem ellipticities_of_ordered_axes
    (v_h r_h a b c : real) (F : mat3) (k : _LeeSutoNFWPotential.t) :
  0 < c -> c <= b -> b <= a ->
  (_LeeSutoNFWPotential.__init__ v_h r_h a b c F).2 = ok k ->
  0 <= _LeeSutoNFWPotential.e_b2 k
  /\ _LeeSutoNFWPotential.e_b2 k <= _LeeSutoNFWPotential.e_c2 k
  /\ _LeeSutoNFWPotential.e_c2 k < 1.
Proof.
  intros Hc Hcb Hba Hk.
  apply kernel_init_inv in Hk as (Ha & Hr & Fi & Hi & ->).
  cbn [_LeeSutoNFWPotential.attributes _LeeSutoNFWPotential.e_b2
       _LeeSutoNFWPotential.e_c2].
  assert (Hia : 0 < / a) by (apply Rinv_0_lt_compat; lra).
  assert (Hqb : b / a * a = b) by (by field).
  assert (Hqc : c / a * a = c) by (by field).
  assert (Hqc0 : 0 < c / a) by (unfold Rdiv; nra).
  set (qb := b / a) in *. set (qc := c / a) in *.
  assert (Hqb1 : qb <= 1) by nra. assert (Hqcb : qc <= qb) by nra.
  cbn [pow]. repeat split; nra.
Qed.

Lemma ellipticities_of_ordered_axes_witness :
  0 <= _LeeSutoNFWPotential.e_b2
         (_LeeSutoNFWPotential.attributes 1 1 3 2 1 eye3 (transpose eye3)).
Proof.
  apply (ellipticities_of_ordered_axes 1 1 3 2 1 eye3); try lra.
  rewrite kernel_init_orthogonal; [reflexivity|lra|lra|apply orthogonal_eye].
Defined.

(** X17.  Change of the unit of length for the Lee-Suto kernel: with the
    scale radius and the position both multiplied by [s > 0], the value is
    unchanged and the gradient is divided by [s] (at a position whose radius
    [r] in the frame of the halo is positive, with [r + r_h <> 0]). *)
Theorem lee_suto_length_rescaling
    (v_h r_h a b c s : real) (F : mat3) (k k' : _LeeSutoNFWPotential.t)
    (x y z : real) :
  0 < s ->
  (_LeeSutoNFWPotential.__init__ v_h r_h a b c F).2 = ok k ->
  (_LeeSutoNFWPotential.__init__ v_h (s * r_h) a b c F).2 = ok k' ->
  let '(X, Y, Z) := mat_vec F (x, y, z) in
  0 < norm3 X Y Z -> norm3 X Y Z + r_h <> 0 ->
  let g := _LeeSutoNFWPotential.gradient_at k x y z in
  _LeeSutoNFWPotential.value_at k' (s*x) (s*y) (s*z)
  = _LeeSutoNFWPotential.value_at k x y z
  /\ _LeeSutoNFWPotential.gradient_at k' (s*x) (s*y) (s*z)
     = (g.1.1 / s, g.1.2 / s, g.2 / s).
Proof.
  intros Hs Hk Hk'.
  apply kernel_init_inv in Hk as (Ha & Hr & Fi & Hi & ->).
  apply kernel_init_inv in Hk' as (_ & _ & Fi' & Hi' & ->).
  rewrite Hi in Hi'. injection Hi' as <-.
  rewrite !value_at_native, !gradient_at_native, mat_vec_scale.
  cbn [_LeeSutoNFWPotential.attributes _LeeSutoNFWPotential.R
       _LeeSutoNFWPotential.Rinv].
  destruct (mat_vec F (x, y, z)) as [[X Y] Z]. cbn [fst snd].
  intros Hpos Hx0.
  destruct (length_rescaling_native v_h r_h a b c F Fi s X Y Z Hs Hr Hpos Hx0)
    as [Hv Hg].
  cbv zeta in Hg. split; [exact Hv|]. rewrite Hg.
  destruct (_LeeSutoNFWPotential.gradient_native _ X Y Z) as [[ax ay] az].
  unfold mat_vec. cbn [fst snd].
  apply pair_equal_spec; split; [apply pair_equal_spec; split|];
    field; lra.
Qed.

(** ** More on the loops *)

Section Loops.

Implicit Types (h : heap) (rb ob cur : buffer).

Lemma coord_insert_other cur k v i j :
  k <> idx2 i j -> coord (<[k := v]> cur) i j = coord cur i j.
Proof.
  intros Hne. unfold coord. rewrite !nth_lookup.
  by rewrite list_lookup_insert_ne.
Qed.

(** The vector loop when the output buffer is the position buffer itself:
    every row is read before it is overwritten, and no later row is
    touched. *)
Lemma each_gradient_in_place_from g r :
  forall n i0 h cur,
    h !! r = Some cur -> (3 * (i0 + n) <= length cur)%nat ->
    exists ob',
      for_range (gradient_step g r r) i0 n h = ok (<[r := ob']> h)
      /\ length ob' = length cur
      /\ (forall i, (i0 <= i < i0 + n)%nat ->
            let v := g (coord cur i 0) (coord cur i 1) (coord cur i 2) in
            ob' !! idx2 i 0 = Some v.1.1 /\
            ob' !! idx2 i 1 = Some v.1.2 /\
            ob' !! idx2 i 2 = Some v.2)
      /\ (forall k, (k < 3 * i0 \/ 3 * (i0 + n) <= k)%nat ->
            ob' !! k = cur !! k).
Proof.
  induction n as [|n IH]; intros i0 h cur Hr Hl.
  - exists cur. cbn. split; [|split; [|split]]; [|done|intros; lia|done].
    by rewrite list_insert_id.
  - cbn [for_range]. unfold gradient_step at 1.
    rewrite (load_ok h r cur (idx2 i0 0) Hr) by (unfold idx2; lia). cbn [bind ok].
    rewrite (load_ok h r cur (idx2 i0 1) Hr) by (unfold idx2; lia). cbn [bind ok].
    rewrite (load_ok h r cur (idx2 i0 2) Hr) by (unfold idx2; lia). cbn [bind ok].
    fold (coord cur i0 0) (coord cur i0 1) (coord cur i0 2).
    assert (Hpl : (r < length h)%nat) by by eapply lookup_lt_Some.
    assert (Hv : forall i, i = i0 ->
              g (coord cur i 0) (coord cur i 1) (coord cur i 2)
              = g (coord cur i0 0) (coord cur i0 1) (coord cur i0 2))
      by by intros ? ->.
    destruct (g (coord cur i0 0) (coord cur i0 1) (coord cur i0 2))
      as [[gx gy] gz].
    rewrite (store_ok h r cur (idx2 i0 0) gx Hr) by (unfold idx2; lia).
    cbn [bind ok].
    erewrite store_ok;
      [|by apply list_lookup_insert_eq
       |rewrite length_insert; unfold idx2; lia].
    cbn [bind ok]. rewrite list_insert_insert_eq.
    erewrite store_ok;
      [|by apply list_lookup_insert_eq
       |rewrite !length_insert; unfold idx2; lia].
    cbn [bind ok]. rewrite list_insert_insert_eq.
    set (cur3 := <[idx2 i0 2 := gz]>
                   (<[idx2 i0 1 := gy]> (<[idx2 i0 0 := gx]> cur))).
    assert (Hl3 : length cur3 = length cur)
      by (unfold cur3; by rewrite !length_insert).
    assert (Hc3 : forall i j, (i0 < i)%nat -> (j < 3)%nat ->
                coord cur3 i j = coord cur i j).
    { intros i j Hi Hj. unfold cur3.
      rewrite !coord_insert_other; [done|unfold idx2; lia..]. }
    destruct (IH (S i0) (<[r := cur3]> h) cur3)
      as (ob' & Hrun & Hlen & Hin & Hout).
    + by rewrite list_lookup_insert_eq.
    + lia.
    + exists ob'. rewrite Hrun, list_insert_insert_eq.
      split; [|split; [|split]]; [done|lia| |].
      * intros i Hi. destruct (decide (i = i0)) as [->|Hd].
        -- rewrite (Hv i0 eq_refl). cbn.
           rewrite !Hout by (unfold idx2; lia). unfold cur3, idx2.
           split; [|split].
           ++ rewrite !list_lookup_insert_ne by lia.
              apply list_lookup_insert_eq. lia.
           ++ rewrite list_lookup_insert_ne by lia.
              apply list_lookup_insert_eq. rewrite length_insert. lia.
           ++ apply list_lookup_insert_eq. rewrite !length_insert. lia.
        -- rewrite <- !Hc3 by lia. apply Hin. lia.
      * intros k Hk. rewrite Hout by lia. unfold cur3, idx2.
        by rewrite !list_lookup_insert_ne by lia.
Qed.

(** Two buffers with the same entries are equal. *)
Lemma buffer_eq ob ob' :
  (forall i, ob' !! i = ob !! i) -> ob' = ob.
Proof. intros H. by apply list_eq. Qed.

Lemma each_value_twice f r out n h rb ob :
  r <> out -> h !! r = Some rb -> h !! out = Some ob ->
  (3 * range_count n <= length rb)%nat -> (range_count n <= length ob)%nat ->
  exists h1, each_value f r out n h = ok h1
             /\ each_value f r out n h1 = ok h1.
Proof.
  intros Hne Hr Ho Hlr Hlo.
  assert (Hol : (out < length h)%nat) by by eapply lookup_lt_Some.
  destruct (each_value_spec f r out n h rb ob Hne Hr Ho Hlr Hlo)
    as (pot' & Hrun & Hlen & Hin & Hout).
  eexists. split; [exact Hrun|].
  destruct (each_value_spec f r out n (<[out := pot']> h) rb pot')
    as (pot2 & Hrun2 & Hlen2 & Hin2 & Hout2);
    [done|by rewrite list_lookup_insert_ne|by rewrite list_lookup_insert_eq
    |done|lia|].
  rewrite Hrun2, list_insert_insert_eq. do 2 f_equal.
  apply buffer_eq. intros i.
  destruct (decide (i < range_count n)%nat).
  - by rewrite Hin2, Hin.
  - apply Hout2. lia.
Qed.

Lemma each_gradient_twice g r out n h rb ob :
  r <> out -> h !! r = Some rb -> h !! out = Some ob ->
  (3 * range_count n <= length rb)%nat ->
  (3 * range_count n <= length ob)%nat ->
  exists h1, each_gradient g r out n h = ok h1
             /\ each_gradient g r out n h1 = ok h1.
Proof.
  intros Hne Hr Ho Hlr Hlo.
  assert (Hol : (out < length h)%nat) by by eapply lookup_lt_Some.
  destruct (each_gradient_spec g r out n h rb ob Hne Hr Ho Hlr Hlo)
    as (grad' & Hrun & Hlen & Hin & Hout).
  eexists. split; [exact Hrun|].
  destruct (each_gradient_spec g r out n (<[out := grad']> h) rb grad')
    as (grad2 & Hrun2 & Hlen2 & Hin2 & Hout2);
    [done|by rewrite list_lookup_insert_ne|by rewrite list_lookup_insert_eq
    |done|lia|].
  rewrite Hrun2, list_insert_insert_eq. do 2 f_equal.
  apply buffer_eq. intros k.
  destruct (decide (k < 3 * range_count n)%nat) as [Hk|Hk].
  - assert (Hij : exists i j, (i < range_count n)%nat /\ (j < 3)%nat
                              /\ k = idx2 i j).
    { exists (k / 3)%nat, (k mod 3)%nat. unfold idx2.
      pose proof (Nat.div_mod_eq k 3). pose proof (Nat.mod_upper_bound k 3).
      repeat split; lia. }
    destruct Hij as (i & j & Hi & Hj & ->).
    destruct (Hin i Hi) as (A0 & A1 & A2).
    destruct (Hin2 i Hi) as (B0 & B1 & B2).
    destruct j as [|[|[|j]]]; [congruence..|lia].
  - apply Hout2. lia.
Qed.

Lemma each_gradient_in_place g r n h rb :
  h !! r = Some rb -> (3 * range_count n <= length rb)%nat ->
  exists grad',
    each_gradient g r r n h = ok (<[r := grad']> h)
    /\ length grad' = length rb
    /\ (forall i, (i < range_count n)%nat ->
          let v := g (coord rb i 0) (coord rb i 1) (coord rb i 2) in
          grad' !! idx2 i 0 = Some v.1.1 /\
          grad' !! idx2 i 1 = Some v.1.2 /\
          grad' !! idx2 i 2 = Some v.2)
    /\ (forall k, (3 * range_count n <= k)%nat -> grad' !! k = rb !! k).
Proof.
  intros Hr Hl.
  destruct (each_gradient_in_place_from g r (range_count n) 0%nat h rb Hr)
    as (ob' & Hrun & Hlen & Hin & Hout); [lia|].
  exists ob'. split; [|split; [|split]]; [done|done| |].
  - intros i Hi. apply Hin. lia.
  - intros k Hk. apply Hout. lia.
Qed.

End Loops.

Section Methods.

Variables (hq : _HernquistPotential.t) (mn : _MiyamotoNagaiPotential.t)
  (ls : _LeeSutoNFWPotential.t).

Lemma value_method_is_loop run f :
  In (run, f) (value_methods hq mn ls) -> run = each_value f.
Proof.
  cbn. intros [[= <- <-]|[[= <- <-]|[[= <- <-]|[]]]]; reflexivity.
Qed.

Lemma gradient_method_is_loop run g :
  In (run, g) (gradient_methods hq mn ls) -> run = each_gradient g.
Proof.
  cbn. intros [[= <- <-]|[[= <- <-]|[[= <- <-]|[]]]]; reflexivity.
Qed.

End Methods.

(** X18.  With a position buffer of at least [3*N] slots
    ([N = nparticles]): each [_value] method, given an output buffer of at
    least [N] slots that is not the position buffer, returns, keeps the
    length of the output buffer and leaves every slot from [N] on as it was;
    each [_gradient] method, given an output buffer of at least [3*N] slots
    that is not the position buffer, returns, keeps the length and leaves
    every slot from [3*N] on as it was.  In the heap only the output buffer
    is replaced. *)
Theorem loops_stay_within_their_rows
    (hq : _HernquistPotential.t) (mn : _MiyamotoNagaiPotential.t)
    (ls : _LeeSutoNFWPotential.t) run f run' g
    (r pot grad : nat) (n : Z) (h : heap) (rb pb gb : buffer) :
  In (run, f) (value_methods hq mn ls) ->
  In (run', g) (gradient_methods hq mn ls) ->
  r <> pot -> r <> grad ->
  h !! r = Some rb -> h !! pot = Some pb -> h !! grad = Some gb ->
  (3 * Z.to_nat n <= length rb)%nat ->
  (Z.to_nat n <= length pb)%nat ->
  (3 * Z.to_nat n <= length gb)%nat ->
  (exists pot',
     run r pot n h = ok (<[pot := pot']> h)
     /\ length pot' = length pb
     /\ forall i, (Z.to_nat n <= i)%nat -> pot' !! i = pb !! i)
  /\ (exists grad',
     run' r grad n h = ok (<[grad := grad']> h)
     /\ length grad' = length gb
     /\ forall k, (3 * Z.to_nat n <= k)%nat -> grad' !! k = gb !! k).
Proof.
  intros Hv Hg Hnp Hng Hr Hp Hgb Hlr Hlp Hlg.
  rewrite (value_method_is_loop hq mn ls run f Hv).
  rewrite (gradient_method_is_loop hq mn ls run' g Hg). split.
  - destruct (each_value_spec f r pot n h rb pb Hnp Hr Hp Hlr Hlp)
      as (pot' & Hrun & Hlen & _ & Hout).
    by exists pot'.
  - destruct (each_gradient_spec g r grad n h rb gb Hng Hr Hgb Hlr Hlg)
      as (grad' & Hrun & Hlen & _ & Hout).
    by exists grad'.
Qed.

(** X19.  Under the same conditions on the buffers (an output buffer of at
    least [N] slots for a [_value] method, of at least [3*N] slots for a
    [_gradient] method, neither being the position buffer), calling any of
    the six loops a second time with the same arguments changes nothing: it
    returns the heap the first call returned. *)
Theorem loops_are_idempotent
    (hq : _HernquistPotential.t) (mn : _MiyamotoNagaiPotential.t)
    (ls : _LeeSutoNFWPotential.t) run f run' g
    (r pot grad : nat) (n : Z) (h : heap) (rb pb gb : buffer) :
  In (run, f) (value_methods hq mn ls) ->
  In (run', g) (gradient_methods hq mn ls) ->
  r <> pot -> r <> grad ->
  h !! r = Some rb -> h !! pot = Some pb -> h !! grad = Some gb ->
  (3 * Z.to_nat n <= length rb)%nat ->
  (Z.to_nat n <= length pb)%nat ->
  (3 * Z.to_nat n <= length gb)%nat ->
  (exists h1, run r pot n h = ok h1 /\ run r pot n h1 = ok h1)
  /\ (exists h1, run' r grad n h = ok h1 /\ run' r grad n h1 = ok h1).
Proof.
  intros Hv Hg Hnp Hng Hr Hp Hgb Hlr Hlp Hlg.
  rewrite (value_method_is_loop hq mn ls run f Hv).
  rewrite (gradient_method_is_loop hq mn ls run' g Hg). split.
  - by eapply each_value_twice.
  - by eapply each_gradient_twice.
Qed.

(** X20.  Each [_gradient] method may be given the position buffer as its
    output buffer: it returns, and row [i] of the buffer then holds the
    gradient at the position that row [i] held before the call, for every
    [i] below [nparticles]; the slots from [3*nparticles] on are as they
    were. *)
Theorem gradient_in_place
    (hq : _HernquistPotential.t) (mn : _MiyamotoNagaiPotential.t)
    (ls : _LeeSutoNFWPotential.t) run g
    (r : nat) (n : Z) (h : heap) (rb : buffer) :
  In (run, g) (gradient_methods hq mn ls) ->
  h !! r = Some rb -> (3 * range_count n <= length rb)%nat ->
  exists grad',
    run r r n h = ok (<[r := grad']> h)
    /\ length grad' = length rb
    /\ (forall i, (i < range_count n)%nat ->
          let v := g (coord rb i 0) (coord rb i 1) (coord rb i 2) in
          grad' !! idx2 i 0 = Some v.1.1 /\
          grad' !! idx2 i 1 = Some v.1.2 /\
          grad' !! idx2 i 2 = Some v.2)
    /\ (forall k, (3 * range_count n <= k)%nat -> grad' !! k = rb !! k).
Proof.
  intros Hg Hr Hl. rewrite (gradient_method_is_loop hq mn ls run g Hg).
  by apply each_gradient_in_place.
Qed.

Lemma lee_suto_length_rescaling_witness :
  _LeeSutoNFWPotential.value_at
    (_LeeSutoNFWPotential.attributes 1 (2 * 1) 1 1 1 eye3 (transpose eye3))
    (2 * 1) (2 * 0) (2 * 0)
  = _LeeSutoNFWPotential.value_at
      (_LeeSutoNFWPotential.attributes 1 1 1 1 1 eye3 (transpose eye3)) 1 0 0.
Proof.
  pose proof (lee_suto_length_rescaling 1 1 1 1 1 2 eye3
                (_LeeSutoNFWPotential.attributes 1 1 1 1 1 eye3
                   (transpose eye3))
                (_LeeSutoNFWPotential.attributes 1 (2 * 1) 1 1 1 eye3
                   (transpose eye3)) 1 0 0) as H.
  cbv [mat_vec eye3 m00 m01 m02 m10 m11 m12 m20 m21 m22] in H.
  assert (Hone : norm3 (1 * 1 + 0 * 0 + 0 * 0) (0 * 1 + 1 * 0 + 0 * 0)
                   (0 * 1 + 0 * 0 + 1 * 0) = 1).
  { unfold norm3.
    replace ((1 * 1 + 0 * 0 + 0 * 0) * (1 * 1 + 0 * 0 + 0 * 0)
             + (0 * 1 + 1 * 0 + 0 * 0) * (0 * 1 + 1 * 0 + 0 * 0)
             + (0 * 1 + 0 * 0 + 1 * 0) * (0 * 1 + 0 * 0 + 1 * 0))
      with 1 by ring.
    apply sqrt_1. }
  apply H.
  - lra.
  - rewrite kernel_init_orthogonal; [reflexivity|lra|lra|apply orthogonal_eye].
  - rewrite kernel_init_orthogonal; [reflexivity|lra|lra|apply orthogonal_eye].
  - rewrite Hone. lra.
  - rewrite Hone. lra.
Defined.

(** Two particles and a [pot] buffer of three slots: the third slot keeps
    its content. *)
Lemma loops_stay_within_their_rows_witness :
  exists pot',
    _HernquistPotential._value (_HernquistPotential.__init__ 1 1 1)
      0 1 2 [[1; 0; 0; 0; 2; 0]; [7; 8; 9]; [7; 7; 7; 7; 7; 7]]
    = ok (<[1%nat := pot']>
            [[1; 0; 0; 0; 2; 0]; [7; 8; 9]; [7; 7; 7; 7; 7; 7]])
    /\ length pot' = 3%nat /\ pot' !! 2%nat = Some 9.
Proof.
  destruct (loops_stay_within_their_rows
              (_HernquistPotential.__init__ 1 1 1)
              (_MiyamotoNagaiPotential.__init__ 1 1 1 1)
              (_LeeSutoNFWPotential.attributes 1 1 1 1 1 eye3 eye3)
              (_HernquistPotential._value (_HernquistPotential.__init__ 1 1 1))
              (_HernquistPotential.value_at (_HernquistPotential.__init__ 1 1 1))
              (_HernquistPotential._gradient
                 (_HernquistPotential.__init__ 1 1 1))
              (_HernquistPotential.gradient_at
                 (_HernquistPotential.__init__ 1 1 1))
              0%nat 1%nat 2%nat 2%Z
              [[1; 0; 0; 0; 2; 0]; [7; 8; 9]; [7; 7; 7; 7; 7; 7]]
              [1; 0; 0; 0; 2; 0] [7; 8; 9] [7; 7; 7; 7; 7; 7])
    as [(pot' & Hrun & Hlen & Hout) _].
  - simpl. left. reflexivity.
  - simpl. left. reflexivity.
  - lia.
  - lia.
  - reflexivity.
  - reflexivity.
  - reflexivity.
  - simpl. lia.
  - simpl. lia.
  - simpl. lia.
  - exists pot'. split; [exact Hrun|]. split; [exact Hlen|].
    apply (Hout 2%nat). simpl. lia.
Defined.

(** Two particles and a [pot] buffer of two slots. *)
Lemma loops_are_idempotent_witness :
  exists h1,
    _HernquistPotential._value (_HernquistPotential.__init__ 1 1 1)
      0 1 2 [[1; 0; 0; 0; 2; 0]; [7; 7]; [7; 7; 7; 7; 7; 7]] = ok h1
    /\ _HernquistPotential._value (_HernquistPotential.__init__ 1 1 1)
         0 1 2 h1 = ok h1.
Proof.
  destruct (loops_are_idempotent
              (_HernquistPotential.__init__ 1 1 1)
              (_MiyamotoNagaiPotential.__init__ 1 1 1 1)
              (_LeeSutoNFWPotential.attributes 1 1 1 1 1 eye3 eye3)
              (_HernquistPotential._value (_HernquistPotential.__init__ 1 1 1))
              (_HernquistPotential.value_at (_HernquistPotential.__init__ 1 1 1))
              (_HernquistPotential._gradient
                 (_HernquistPotential.__init__ 1 1 1))
              (_HernquistPotential.gradient_at
                 (_HernquistPotential.__init__ 1 1 1))
              0%nat 1%nat 2%nat 2%Z
              [[1; 0; 0; 0; 2; 0]; [7; 7]; [7; 7; 7; 7; 7; 7]]
              [1; 0; 0; 0; 2; 0] [7; 7] [7; 7; 7; 7; 7; 7])
    as [Hv _].
  - simpl. left. reflexivity.
  - simpl. left. reflexivity.
  - lia.
  - lia.
  - reflexivity.
  - reflexivity.
  - reflexivity.
  - simpl. lia.
  - simpl. lia.
  - simpl. lia.
  - exact Hv.
Defined.

Lemma gradient_in_place_witness :
  exists grad',
    _HernquistPotential._gradient (_HernquistPotential.__init__ 1 1 1)
      0 0 1 [[1; 0; 0]]
    = ok (<[0%nat := grad']> [[1; 0; 0]])
    /\ length grad' = 3%nat.
Proof.
  destruct (gradient_in_place
              (_HernquistPotential.__init__ 1 1 1)
              (_MiyamotoNagaiPotential.__init__ 1 1 1 1)
              (_LeeSutoNFWPotential.attributes 1 1 1 1 1 eye3 eye3)
              (_HernquistPotential._gradient
                 (_HernquistPotential.__init__ 1 1 1))
              (_HernquistPotential.gradient_at
                 (_HernquistPotential.__init__ 1 1 1))
              0%nat 1%Z [[1; 0; 0]] [1; 0; 0])
    as (grad' & Hrun & Hlen & _).
  - simpl. left. reflexivity.
  - reflexivity.
  - simpl. lia.
  - exists grad'. split; [exact Hrun|exact Hlen].
Defined.
